(** * swapem: the swap-directive scanner, its resolver and its template parser

    A shallow embedding of [src/swap-transform.ts], [src/swap-data.ts] and
    [src/swap-directive-template.ts].

    JavaScript strings are sequences of UTF-16 code units; a code unit is
    modelled as an [N] and a string as a [list N], so that [s[i]], [length],
    [endsWith], [slice], [trim] and [split] are the list operations they are
    in the language.  Plain objects used as dictionaries (the swap data) are
    finite maps from their own keys to nodes, held with the realm that
    gives the properties they inherit. *)

From Stdlib Require Import String Ascii NArith.
From stdpp Require Import base list gmap.
From Equations Require Import Equations.
From Equations.Prop Require Import Logic.

Set Default Proof Using "Type".
Set Warnings "-register-all".

(** ** Strings *)

Abbreviation char := N (only parsing).
Abbreviation str := (list N) (only parsing).

(** A string literal of the source, as code units. *)
Definition u16 (s : string) : str :=
  (λ a, N_of_ascii a) <$> list_ascii_of_string s.

(** The double quote that the error messages put around a path. *)
Definition dquote : str := [34%N].

(** [/\s/.test(c)] for one code unit, which is also the set of characters
    [String.prototype.trim] strips: WhiteSpace and LineTerminator of
    ECMAScript. *)
Definition is_space (c : char) : bool :=
  ((9 <=? c) && (c <=? 13) || (c =? 32) || (c =? 160) || (c =? 5760)
   || (8192 <=? c) && (c <=? 8202) || (c =? 8232) || (c =? 8233)
   || (c =? 8239) || (c =? 8287) || (c =? 12288) || (c =? 65279))%N.

Fixpoint trimStart (s : str) : str :=
  match s with
  | c :: s' => if is_space c then trimStart s' else s
  | [] => []
  end.

Definition trimEnd (s : str) : str := reverse (trimStart (reverse s)).

(** [s.trim()] *)
Definition trim (s : str) : str := trimEnd (trimStart s).

(** [s.startsWith(p)] and [s.endsWith(p)] *)
Definition startsWith (s p : str) : bool := bool_decide (p `prefix_of` s).
Definition endsWith (s p : str) : bool := bool_decide (p `suffix_of` s).

(** [s.slice(0, -n)] for [n >= 0]: [-0] is [0], so [n = 0] gives the empty
    string. *)
Definition slice_0_neg (s : str) (n : nat) : str :=
  match n with
  | 0 => []
  | _ => take (length s - n) s
  end.

(** [s.split(sep)] with a string separator.  [skip] counts the code units of
    a separator occurrence that are still to be passed over, [acc] is the
    segment being collected. *)
Fixpoint split_from (sep s acc : str) (skip : nat) : list str :=
  match s with
  | [] => [acc]
  | c :: s' =>
      match skip with
      | S k => split_from sep s' acc k
      | 0 =>
          if startsWith s sep
          then acc :: split_from sep s' [] (length sep - 1)
          else split_from sep s' (acc ++ [c]) 0
      end
  end.

Definition split (s sep : str) : list str :=
  match sep with
  | [] => (λ c, [c]) <$> s
  | _ => split_from sep s [] 0
  end.

(** [segments.join(sep)] *)
Fixpoint join (sep : str) (segments : list str) : str :=
  match segments with
  | [] => []
  | [segment] => segment
  | segment :: segments' => segment ++ sep ++ join sep segments'
  end.

(** [s.split(/\s+/)]: the pieces between maximal runs of whitespace.
    [in_run] tells that the previous code unit was whitespace, so that the
    separator being matched extends over this one. *)
Fixpoint split_ws_from (s acc : str) (in_run : bool) : list str :=
  match s with
  | [] => [acc]
  | c :: s' =>
      if is_space c
      then if in_run then split_ws_from s' acc true
           else acc :: split_ws_from s' [] true
      else split_ws_from s' (acc ++ [c]) false
  end.

Definition split_ws (s : str) : list str := split_ws_from s [] false.

(** ** Exceptions *)

(** The two classes the source throws; [TypeError] is a subclass of [Error],
    so both pass [error instanceof Error]. *)
Inductive exn :=
  | TypeError (message : str)
  | Error (message : str).

(** ** Swap data ([swap-data.ts]) *)

(** A node is a string (leaf) or a record of nodes. *)
Inductive DataNode :=
  | DataLeafNode (value : str)
  | DataRecord (children : gmap str DataNode).

(** ** Property reads

    [value[segment]] reads an own property of [value] or, when there is
    none of that name, a property of its prototype chain.  The records of a
    tree hold the keys of the data as own properties.  What a read finds
    beyond them -- the properties of [Object.prototype] for an object
    literal or the result of [JSON.parse], nothing for an object without
    prototype -- is given by the realm the data lives in.  Values that are
    neither strings nor records of the data (functions, prototypes,
    numbers) are named by an identifier. *)
Inductive Property :=
  | Nullish                        (* [undefined] or [null] *)
  | StringValue (value : str)      (* a string: a leaf for [getValue] *)
  | ObjectValue (id : N)           (* any other value *)
  | GetterThrows (message : str).  (* a getter of the library: [TypeError] *)

Record Realm := mkRealm {
  (** [record[segment]] for a record of the data that has no own property
      [segment] *)
  inherited : str → Property;
  (** [value[segment]] for the value named [id] *)
  property : N → str → Property
}.

(** The root of the tree is a record; it is held with its realm. *)
Record SwapData := mkData {
  own : gmap str DataNode;
  realm : Realm
}.

(** ** The directive template ([swap-directive-template.ts]) *)

Record SwapDirectiveTemplate := mkTemplate {
  start : str;
  separator : str;
  end_ : str
}.

Definition too_many_tokens (string_ : str) : str :=
  u16 "Invalid directive template " ++ dquote ++ string_ ++ dquote
  ++ u16 " has too many tokens.".

Definition too_few_tokens (string_ : str) : str :=
  u16 "Invalid directive template " ++ dquote ++ string_ ++ dquote
  ++ u16 " has too few tokens.".

(** [SwapDirectiveTemplate.fromString]: the destructuring
    [[start, separator, end, ...rest]] reads positions 0, 1, 2 of the token
    array (absent positions are [undefined]) and keeps what follows. *)
Definition fromString (string_ : str) : exn + SwapDirectiveTemplate :=
  let tokens := split_ws (trim string_) in
  let rest := drop 3 tokens in
  if bool_decide (0 < length rest) then inl (Error (too_many_tokens string_))
  else
    match tokens !! 0%nat, tokens !! 1%nat, tokens !! 2%nat with
    | Some start, Some separator, Some end_ =>
        inr (mkTemplate start separator end_)
    | _, _, _ => inl (Error (too_few_tokens string_))
    end.

(** ** The resolver ([getValue] in [swap-transform.ts]) *)

Definition index_into_leaf (valuePath : str) : str :=
  u16 "Tried to index into a leaf value in path " ++ dquote ++ valuePath
  ++ dquote.

Definition non_existent_key (segment valuePath : str) : str :=
  u16 "Tried to index with a non-existent key " ++ dquote ++ segment
  ++ dquote ++ u16 " in path " ++ dquote ++ valuePath ++ dquote.

Definition no_leaf_reached (valuePath : str) : str :=
  u16 "Value path " ++ dquote ++ valuePath ++ dquote
  ++ u16 " didn't reach a leaf value".

(** What the variable [value] of [getValue] holds: a node of the data or a
    value of the realm. *)
Inductive Value :=
  | OfData (node : DataNode)
  | OfRealm (id : N).

(** The test [newValue == null] on what a read of the prototype chain
    found. *)
Definition non_nullish (valuePath segment : str) (newValue : Property)
    : exn + Value :=
  match newValue with
  | Nullish => inl (TypeError (non_existent_key segment valuePath))
  | StringValue value => inr (OfData (DataLeafNode value))
  | ObjectValue id => inr (OfRealm id)
  | GetterThrows message => inl (TypeError message)
  end.

(** The body of the [for ... of] loop of [getValue]: the leaf test, the
    read [value[segment]] (own properties first) and the null test. *)
Definition getValue_body (R : Realm) (valuePath : str) (value : Value)
    (segment : str) : exn + Value :=
  match value with
  | OfData (DataLeafNode _) => inl (TypeError (index_into_leaf valuePath))
  | OfData (DataRecord children) =>
      match children !! segment with
      | Some newValue => inr (OfData newValue)
      | None => non_nullish valuePath segment (inherited R segment)
      end
  | OfRealm id => non_nullish valuePath segment (property R id segment)
  end.

(** The [for ... of] loop of [getValue] over the segments. *)
Fixpoint getValue_loop (R : Realm) (valuePath : str) (value : Value)
    (segments : list str) : exn + Value :=
  match segments with
  | [] => inr value
  | segment :: segments' =>
      match getValue_body R valuePath value segment with
      | inl e => inl e
      | inr newValue => getValue_loop R valuePath newValue segments'
      end
  end.

Definition getValue (data : SwapData) (valuePath separator : str)
    : exn + str :=
  match getValue_loop (realm data) valuePath (OfData (DataRecord (own data)))
          (split valuePath separator) with
  | inl e => inl e
  | inr (OfData (DataLeafNode value)) => inr value
  | inr _ => inl (TypeError (no_leaf_reached valuePath))
  end.

(** ** The scanner ([swap-transform.ts]) *)

Record ProcessingContext := mkContext {
  input : str;
  output : str;
  swapData : SwapData;
  template : SwapDirectiveTemplate;
  stateBuffer : str;
  nextIndex : nat
}.

Definition set_input (v : str) (c : ProcessingContext) :=
  mkContext v (output c) (swapData c) (template c) (stateBuffer c) (nextIndex c).
Definition set_output (v : str) (c : ProcessingContext) :=
  mkContext (input c) v (swapData c) (template c) (stateBuffer c) (nextIndex c).
Definition set_stateBuffer (v : str) (c : ProcessingContext) :=
  mkContext (input c) (output c) (swapData c) (template c) v (nextIndex c).
Definition set_nextIndex (v : nat) (c : ProcessingContext) :=
  mkContext (input c) (output c) (swapData c) (template c) (stateBuffer c) v.

(** [context.nextIndex++] (or [++context.nextIndex]) as a statement. *)
Definition advance (c : ProcessingContext) : ProcessingContext :=
  set_nextIndex (S (nextIndex c)) c.

(** The unread part of the chunk: [input[nextIndex]] is its head, and
    [undefined] when it is empty. *)
Definition unread (c : ProcessingContext) : str :=
  drop (nextIndex c) (input c).

(** State functions are compared by identity in [_transform].  The named
    functions are constants; [whitespaceConsumerState] is the closure that
    [consumeWhitespaceAndThen] builds around [nextState].  A closure is only
    ever compared with itself or with a named function, so structural
    equality agrees with identity on every comparison that is made. *)
Inductive StateFunction :=
  | lookingForDirectiveState
  | inDirectiveState
  | whitespaceConsumerState (nextState : StateFunction).

Definition consumeWhitespaceAndThen (nextState : StateFunction)
    : StateFunction :=
  whitespaceConsumerState nextState.

Global Instance StateFunction_eq_dec : EqDecision StateFunction.
Proof. solve_decision. Defined.

(** How a call ends: with a value, or with an exception; either way the
    context it mutated is what the caller sees afterwards. *)
Inductive completion (A : Type) :=
  | Return (ctx : ProcessingContext) (v : A)
  | Throw (ctx : ProcessingContext) (e : exn).
Arguments Return {A} ctx v.
Arguments Throw {A} ctx e.

Definition directive_too_long : str :=
  u16 "Swap directive path is too long (over 1024 characters!). The directive end token is likely missing.".

(** The loops of the state functions read the chunk through
    [input[context.nextIndex]]; here they recurse on the unread part [rest]
    of the chunk, whose head is that code unit, and move [nextIndex] as the
    source does.  An empty [rest] is the [undefined] read past the end. *)

(** The [while] loop of [whitespaceConsumerState]; the result carries the
    final value of [last]. *)
Fixpoint whitespace_loop (rest : str) (ctx : ProcessingContext)
    : ProcessingContext * option char :=
  match rest with
  | [] => (ctx, None)
  | last :: rest' =>
      if is_space last then whitespace_loop rest' (advance ctx)
      else (ctx, Some last)
  end.

Definition whitespaceConsumerState_body (nextState : StateFunction)
    (ctx : ProcessingContext) : completion StateFunction :=
  match whitespace_loop (unread ctx) ctx with
  | (ctx', None) => Return ctx' (whitespaceConsumerState nextState)
  | (ctx', Some _) => Return ctx' nextState
  end.

(** The [while] loop of [lookingForDirectiveState] and its [return]. *)
Fixpoint lookingForDirective_loop (rest : str) (ctx : ProcessingContext)
    : completion StateFunction :=
  if bool_decide (length (stateBuffer ctx) < length (start (template ctx)))
  then
    match rest with
    | [] => Return (advance ctx) lookingForDirectiveState
    | last :: rest' =>
        let ctx := advance ctx in
        if bool_decide (start (template ctx) !! length (stateBuffer ctx) = Some last)
        then lookingForDirective_loop rest'
               (set_stateBuffer (stateBuffer ctx ++ [last]) ctx)
        else lookingForDirective_loop rest'
               (set_stateBuffer []
                  (set_output (output ctx ++ stateBuffer ctx ++ [last]) ctx))
    end
  else Return ctx (consumeWhitespaceAndThen inDirectiveState).

Definition lookingForDirectiveState_body (ctx : ProcessingContext)
    : completion StateFunction :=
  lookingForDirective_loop (unread ctx) ctx.

(** What [inDirectiveState] does once the buffer ends with the end token. *)
Definition inDirective_resolve (ctx : ProcessingContext)
    : completion StateFunction :=
  match getValue (swapData ctx)
          (trim (slice_0_neg (stateBuffer ctx) (length (end_ (template ctx)))))
          (separator (template ctx)) with
  | inl e => Throw ctx e
  | inr value =>
      Return (set_output (output ctx ++ value) ctx) lookingForDirectiveState
  end.

(** The [while] loop of [inDirectiveState] and what follows it. *)
Fixpoint inDirective_loop (rest : str) (ctx : ProcessingContext)
    : completion StateFunction :=
  if endsWith (stateBuffer ctx) (end_ (template ctx))
  then inDirective_resolve ctx
  else if bool_decide (1024 < length (stateBuffer ctx))
  then Throw ctx (Error directive_too_long)
  else
    match rest with
    | [] => Return (advance ctx) inDirectiveState
    | last :: rest' =>
        let ctx := advance ctx in
        inDirective_loop rest' (set_stateBuffer (stateBuffer ctx ++ [last]) ctx)
    end.

Definition inDirectiveState_body (ctx : ProcessingContext)
    : completion StateFunction :=
  match unread ctx with
  | [] => Return (advance ctx) inDirectiveState
  | last :: rest' =>
      let ctx := advance ctx in
      inDirective_loop rest' (set_stateBuffer (stateBuffer ctx ++ [last]) ctx)
  end.

(** Calling a state function. *)
Definition call (f : StateFunction) (ctx : ProcessingContext)
    : completion StateFunction :=
  match f with
  | lookingForDirectiveState => lookingForDirectiveState_body ctx
  | inDirectiveState => inDirectiveState_body ctx
  | whitespaceConsumerState nextState =>
      whitespaceConsumerState_body nextState ctx
  end.

(** *** Termination of the loop of [_transform]

    A call either moves [nextIndex] forward or returns a state function of
    smaller rank; this is what makes the loop of [_transform] terminate. *)

Fixpoint rank (f : StateFunction) : nat :=
  match f with
  | lookingForDirectiveState => 2
  | inDirectiveState => 0
  | whitespaceConsumerState nextState => S (rank nextState)
  end.

Definition loop_measure (f : StateFunction) (ctx : ProcessingContext) : nat :=
  3 * (length (input ctx) - nextIndex ctx) + rank f.

Lemma whitespace_loop_progress rest ctx ctx' last :
  whitespace_loop rest ctx = (ctx', last) →
  input ctx' = input ctx ∧ nextIndex ctx ≤ nextIndex ctx' ∧
  (last = None → nextIndex ctx' = nextIndex ctx + length rest).
Proof.
  revert ctx. induction rest as [|c rest IH]; intros ctx; simpl.
  - intros [= <- <-]. split_and!; [done|lia|lia].
  - destruct (is_space c).
    + intros H. apply IH in H as (Hi & Hn & Hl). simpl in *.
      split_and!; [done|lia|]. intros. rewrite Hl by done. lia.
    + intros [= <- <-]. split_and!; [done|lia|done].
Qed.

Lemma lookingForDirective_loop_progress rest ctx ctx' f :
  lookingForDirective_loop rest ctx = Return ctx' f →
  input ctx' = input ctx ∧
  ((f = lookingForDirectiveState ∧
    nextIndex ctx' = S (nextIndex ctx + length rest)) ∨
   (f = whitespaceConsumerState inDirectiveState ∧
    nextIndex ctx ≤ nextIndex ctx')).
Proof.
  revert ctx. induction rest as [|c rest IH]; intros ctx; simpl.
  - case_bool_decide; intros [= <- <-]; simpl;
      (split; [done|]); [left|right]; (split; [done|lia]).
  - case_bool_decide.
    + case_bool_decide; intros Hr; apply IH in Hr as [Hi Hn]; simpl in *;
        (split; [done|]); destruct Hn as [[-> Hn]|[-> Hn]];
        [left|right|left|right]; (split; [done|lia]).
    + intros [= <- <-]. split; [done|]. right. split; [done|lia].
Qed.

Lemma inDirective_loop_progress rest ctx ctx' f :
  inDirective_loop rest ctx = Return ctx' f →
  input ctx' = input ctx ∧
  ((f = inDirectiveState ∧
    nextIndex ctx' = S (nextIndex ctx + length rest)) ∨
   (f = lookingForDirectiveState ∧ nextIndex ctx ≤ nextIndex ctx')).
Proof.
  revert ctx. induction rest as [|c rest IH]; intros ctx; simpl.
  - destruct (endsWith _ _).
    + unfold inDirective_resolve. destruct (getValue _ _ _); [done|].
      intros [= <- <-]. split; [done|]. right. split; [done|simpl; lia].
    + case_bool_decide; [done|]. intros [= <- <-]. simpl.
      split; [done|]. left. split; [done|lia].
  - destruct (endsWith _ _).
    + unfold inDirective_resolve. destruct (getValue _ _ _); [done|].
      intros [= <- <-]. split; [done|]. right. split; [done|simpl; lia].
    + case_bool_decide; [done|]. intros Hr. apply IH in Hr as [Hi Hn].
      simpl in *. split; [done|].
      destruct Hn as [[-> Hn]|[-> Hn]]; [left|right]; (split; [done|lia]).
Qed.

Lemma call_progress f ctx ctx' f' :
  nextIndex ctx < length (input ctx) →
  call f ctx = Return ctx' f' →
  input ctx' = input ctx ∧ loop_measure f' ctx' < loop_measure f ctx.
Proof.
  intros Hlt. unfold loop_measure.
  assert (length (unread ctx) = length (input ctx) - nextIndex ctx) as Hlen
    by (unfold unread; by rewrite length_drop).
  destruct f as [| |g]; simpl.
  - unfold lookingForDirectiveState_body. intros H.
    apply lookingForDirective_loop_progress in H as [Hi Hn].
    split; [done|]. rewrite Hi.
    destruct Hn as [[-> Hn]|[-> Hn]]; simpl; lia.
  - unfold inDirectiveState_body.
    destruct (unread ctx) as [|c rest] eqn:Hu; simpl in Hlen; [lia|].
    intros H. apply inDirective_loop_progress in H as [Hi Hn]. simpl in *.
    split; [done|]. rewrite Hi.
    destruct Hn as [[-> Hn]|[-> Hn]]; simpl; lia.
  - unfold whitespaceConsumerState_body.
    destruct (whitespace_loop _ _) as [ctx1 [c|]] eqn:Hw;
      intros [= <- <-];
      apply whitespace_loop_progress in Hw as (Hi & Hn & Hl);
      (split; [done|]); rewrite Hi; simpl.
    + lia.
    + rewrite Hl by done. lia.
Qed.

(** The object: the private fields [#nextState] and [#context]. *)
Record SwapTransform := mkTransform {
  nextState : StateFunction;
  context : ProcessingContext
}.

(** The constructor. *)
Definition new_SwapTransform (swapData : SwapData)
    (template : SwapDirectiveTemplate) : SwapTransform :=
  mkTransform lookingForDirectiveState
    (mkContext [] [] swapData template [] 0).

(** The [while] loop of [_transform], with its [try]/[catch]: the result is
    the object as the loop leaves it, or the exception that was caught. *)
Equations? transform_loop (t : SwapTransform) : completion StateFunction
    by wf (loop_measure (nextState t) (context t)) lt :=
transform_loop t with inspect (bool_decide (nextIndex (context t) < length (input (context t)))) := {
  | exist _ false _ => Return (context t) (nextState t)
  | exist _ true Hlt with inspect (call (nextState t) (context t)) := {
      | exist _ (Throw ctx e) _ => Throw ctx e
      | exist _ (Return ctx newState) Hcall with decide (newState = nextState t) := {
          | left _ => transform_loop (mkTransform (nextState t) ctx)
          | right _ =>
              transform_loop (mkTransform newState (set_stateBuffer [] ctx)) } } }.
Proof.
  all: apply bool_decide_eq_true_1 in Hlt;
    apply call_progress in Hcall as [Hi Hm]; [|done]; simpl.
  - done.
  - unfold loop_measure in *. simpl. lia.
Qed.

(** What [_transform] reports: [push(output)] followed by [callback()], or
    [callback(error)] with nothing pushed.  The second component is the
    object (respectively its context) as the call leaves it.  Chunks are
    strings, so [String(chunk)] is the chunk. *)
Inductive TransformResult :=
  | Pushed (data : str) (t : SwapTransform)
  | Failed (error : exn) (ctx : ProcessingContext).

Definition _transform (t : SwapTransform) (chunk : str) : TransformResult :=
  let ctx := set_nextIndex 0 (set_input chunk (context t)) in
  match transform_loop (mkTransform (nextState t) ctx) with
  | Throw ctx' e => Failed e ctx'
  | Return ctx' f => Pushed (output ctx') (mkTransform f (set_output [] ctx'))
  end.

(** The stream around the transform, as Node drives it: the chunks reach
    [_transform] in order, what it pushes is emitted in order, a
    [callback(error)] destroys the stream, and the end of the input emits
    nothing since the class defines no [_flush].  The result is what was
    emitted, with the error that ended the stream or the object at its end. *)
Fixpoint pipeline (t : SwapTransform) (chunks : list str)
    : list str * (exn + SwapTransform) :=
  match chunks with
  | [] => ([], inr t)
  | chunk :: chunks' =>
      match _transform t chunk with
      | Failed e _ => ([], inl e)
      | Pushed data t' =>
          let '(emitted, r) := pipeline t' chunks' in (data :: emitted, r)
      end
  end.

(** The text a writable at the end of the pipeline has received. *)
Definition written (r : list str * (exn + SwapTransform)) : str :=
  concat r.1.

(** ** A reading of the scanner one code unit at a time

    The definitions below are not in the source: they say what the three
    state functions and the loop of [_transform] amount to for one code
    unit of input, whatever chunk it arrives in.  [transform_loop_scan]
    proves that the loop computes exactly this, and the theorems about
    chunking rest on it. *)

(** The scanner between two code units: the next state function and its
    buffer.  A result adds the text appended to the output. *)
Abbreviation scanned := (exn + StateFunction * str * str)%type (only parsing).

(** The checks of [inDirectiveState] on a buffer that just grew. *)
Definition inDirective_check (T : SwapDirectiveTemplate) (D : SwapData)
    (buf : str) : scanned :=
  if endsWith buf (end_ T) then
    match getValue D (trim (slice_0_neg buf (length (end_ T)))) (separator T) with
    | inl e => inl e
    | inr value => inr (lookingForDirectiveState, [], value)
    end
  else if bool_decide (1024 < length buf) then inl (Error directive_too_long)
  else inr (inDirectiveState, buf, []).

Fixpoint feed (T : SwapDirectiveTemplate) (D : SwapData)
    (f : StateFunction) (buf : str) (c : char) : scanned :=
  match f with
  | lookingForDirectiveState =>
      if bool_decide (length buf < length (start T)) then
        if bool_decide (start T !! length buf = Some c) then
          if bool_decide (S (length buf) < length (start T))
          then inr (lookingForDirectiveState, buf ++ [c], [])
          else inr (whitespaceConsumerState inDirectiveState, [], [])
        else inr (lookingForDirectiveState, [], buf ++ [c])
      else if is_space c
      then inr (whitespaceConsumerState inDirectiveState, [], [])
      else inDirective_check T D [c]
  | inDirectiveState => inDirective_check T D (buf ++ [c])
  | whitespaceConsumerState nextState =>
      if is_space c then inr (f, buf, []) else feed T D nextState [] c
  end.

(** Prefixing the output of a result. *)
Definition emit (out : str) (r : scanned) : scanned :=
  match r with
  | inl e => inl e
  | inr (f, buf, out') => inr (f, buf, out ++ out')
  end.

Fixpoint scan (T : SwapDirectiveTemplate) (D : SwapData)
    (f : StateFunction) (buf : str) (text : str) : scanned :=
  match text with
  | [] => inr (f, buf, [])
  | c :: text' =>
      match feed T D f buf c with
      | inl e => inl e
      | inr (f', buf', out) => emit out (scan T D f' buf' text')
      end
  end.

(** The chunking of a text into single code units. *)
Definition chars (text : str) : list str := (λ c, [c]) <$> text.

(** [text.includes(needle)]: [needle] occurs in [text] as a contiguous
    substring. *)
Fixpoint occurs (needle text : str) : bool :=
  startsWith text needle ||
  match text with
  | [] => false
  | _ :: text' => occurs needle text'
  end.

(** Scanning on from a result. *)
Definition resume (T : SwapDirectiveTemplate) (D : SwapData)
    (r : scanned) (text : str) : scanned :=
  match r with
  | inl e => inl e
  | inr (f, buf, out) => emit out (scan T D f buf text)
  end.

(** A completion of the loop agrees with a result of [scan]: same exception,
    or same state function and buffer, and that much more output. *)
Definition agrees (ctx : ProcessingContext) (r : scanned)
    (c : completion StateFunction) : Prop :=
  match r, c with
  | inl e, Throw _ e' => e = e'
  | inr (f, buf, out), Return ctx' f' =>
      f = f' ∧
      ctx' = mkContext (input ctx) (output ctx ++ out) (swapData ctx)
               (template ctx) buf (nextIndex ctx')
  | _, _ => False
  end.

(** ** Templates, data and texts of the test suite and of the README *)

Definition bang_template : SwapDirectiveTemplate :=
  mkTemplate (u16 "<!") (u16 ".") (u16 "!>").

Definition angle_template : SwapDirectiveTemplate :=
  mkTemplate (u16 ">><") (u16 ".") (u16 "<<>").

(** The realm of the examples.  Of the standard library it holds
    [Object.prototype] (identifier 0) with its twelve properties: the
    function [Object] under [constructor] (identifier 1), the accessor
    [__proto__], which gives the prototype of the object it is read from,
    and ten methods; and of each function its [name].  What else can be
    read from these functions is left out: no example reads it. *)
Definition Object_prototype_methods : list (str * N) :=
  [(u16 "__defineGetter__", 2%N); (u16 "__defineSetter__", 3%N);
   (u16 "hasOwnProperty", 4%N); (u16 "__lookupGetter__", 5%N);
   (u16 "__lookupSetter__", 6%N); (u16 "isPrototypeOf", 7%N);
   (u16 "propertyIsEnumerable", 8%N); (u16 "toString", 9%N);
   (u16 "valueOf", 10%N); (u16 "toLocaleString", 11%N)].

Definition Object_prototype : gmap str Property :=
  list_to_map ((u16 "constructor", ObjectValue 1)
               :: (prod_map id ObjectValue <$> Object_prototype_methods)).

Definition function_names : gmap N str :=
  list_to_map ((1%N, u16 "Object")
               :: ((λ m : str * N, (m.2, m.1)) <$> Object_prototype_methods)).

Definition literal_realm : Realm :=
  mkRealm
    (λ segment,
       if bool_decide (segment = u16 "__proto__") then ObjectValue 0
       else default Nullish (Object_prototype !! segment))
    (λ id segment,
       if bool_decide (id = 0%N)
       then default Nullish (Object_prototype !! segment)
       else if bool_decide (segment = u16 "name")
            then from_option StringValue Nullish (function_names !! id)
            else Nullish).

(** The data written as an object literal whose own keys are [tree]. *)
Definition literal (tree : gmap str DataNode) : SwapData :=
  mkData tree literal_realm.

(** [{"color": {"red": "#ff0000"}}] *)
Definition colors : SwapData :=
  literal
    {[ u16 "color" := DataRecord {[ u16 "red" := DataLeafNode (u16 "#ff0000") ]} ]}.

(** [{"config": {"graphics": {"framerate": "60"}}}] *)
Definition config : SwapData :=
  literal
    {[ u16 "config" :=
         DataRecord {[ u16 "graphics" :=
           DataRecord {[ u16 "framerate" := DataLeafNode (u16 "60") ]} ]} ]}.

Definition frame_rate_text : str :=
  u16 "The frame rate is >><config.graphics.framerate<<>!".

(** [{"color": {"red": "#ff0000", "blue": "#0000ff"}}] *)
Definition two_colors : SwapData :=
  literal
    {[ u16 "color" :=
         DataRecord (<[ u16 "red" := DataLeafNode (u16 "#ff0000") ]>
                       {[ u16 "blue" := DataLeafNode (u16 "#0000ff") ]}) ]}.

(** ** Vocabulary of the statements *)

(** The object is between directives: it looks for the start token, holds
    nothing back and owes no output.  A new object is in this condition. *)
Definition scanning (t : SwapTransform) : Prop :=
  nextState t = lookingForDirectiveState ∧
  stateBuffer (context t) = [] ∧
  output (context t) = [].

(** Where the buffer of [inDirectiveState] first ends with the end token
    [e]: the number of code units of [body] appended to [buf] by then. *)
Fixpoint find_end (e buf body : str) : option nat :=
  match body with
  | [] => None
  | c :: body' =>
      if endsWith (buf ++ [c]) e then Some 1
      else S <$> find_end e (buf ++ [c]) body'
  end.

Definition starts_with_space (s : str) : bool :=
  match s with
  | c :: _ => is_space c
  | [] => false
  end.

(** What [inDirectiveState] does with a buffer that ends with the end
    token, as a result of [scan]. *)
Definition resolved (T : SwapDirectiveTemplate) (D : SwapData) (buf : str)
    : scanned :=
  match getValue D (trim (slice_0_neg buf (length (end_ T)))) (separator T) with
  | inl e => inl e
  | inr value => inr (lookingForDirectiveState, [], value)
  end.

(** The walk of the specification: from a node, the segments lead to a
    node when each is a key of the record reached so far. *)
Inductive walk : DataNode → list str → DataNode → Prop :=
  | walk_done node : walk node [] node
  | walk_descend children segment child segments node :
      children !! segment = Some child →
      walk child segments node →
      walk (DataRecord children) (segment :: segments) node.

(** ** Vocabulary of the further properties *)

(** A text cut into plain stretches and directives; a directive is written
    as the start token, whitespace [ws], the raw path [raw] (with its
    trailing whitespace) and the end token. *)
Inductive piece :=
  | Plain (text : str)
  | Directive (ws raw : str).

Definition piece_source (T : SwapDirectiveTemplate) (p : piece) : str :=
  match p with
  | Plain text => text
  | Directive ws raw => start T ++ ws ++ raw ++ end_ T
  end.

Definition document_source (T : SwapDirectiveTemplate) (pieces : list piece)
    : str :=
  concat (piece_source T <$> pieces).

(** No code unit of [text] is the first one of the start token. *)
Definition never_starts (T : SwapDirectiveTemplate) (text : str) : bool :=
  match start T with
  | c :: _ => forallb (λ x, negb (x =? c)%N) text
  | [] => false
  end.

(** A plain stretch cannot begin a start token; a directive has only
    whitespace before its path, reaches its end token at its end and not
    before, and fits the limit of [inDirectiveState]. *)
Definition piece_ok (T : SwapDirectiveTemplate) (p : piece) : bool :=
  match p with
  | Plain text => never_starts T text
  | Directive ws raw =>
      forallb is_space ws
      && negb (starts_with_space (raw ++ end_ T))
      && bool_decide (find_end (end_ T) [] (raw ++ end_ T)
                      = Some (length (raw ++ end_ T)))
      && bool_decide (length (raw ++ end_ T) ≤ 1025)
  end.

(** What the pieces stand for: the plain stretches as they are, the
    directives replaced by the value of their trimmed path, up to the first
    path that [getValue] rejects. *)
Fixpoint document_output (T : SwapDirectiveTemplate) (D : SwapData)
    (pieces : list piece) : exn + str :=
  match pieces with
  | [] => inr []
  | p :: pieces' =>
      match
        match p with
        | Plain text => inr text
        | Directive _ raw => getValue D (trim raw) (separator T)
        end
      with
      | inl e => inl e
      | inr value =>
          match document_output T D pieces' with
          | inl e => inl e
          | inr values => inr (value ++ values)
          end
      end
  end.

(** What a state function may hold in the buffer when it is suspended. *)
Definition buffer_ok (T : SwapDirectiveTemplate) (f : StateFunction)
    (buf : str) : Prop :=
  match f with
  | lookingForDirectiveState =>
      buf `prefix_of` start T ∧ length buf < length (start T)
  | inDirectiveState =>
      buf ≠ [] ∧ length buf ≤ 1024 ∧ endsWith buf (end_ T) = false
  | whitespaceConsumerState inDirectiveState => buf = []
  | whitespaceConsumerState _ => False
  end.

(** The number of whitespace code units [s] begins with. *)
Definition leading_spaces (s : str) : nat := length s - length (trimStart s).

(** A style sheet with two directives, as pieces. *)
Definition css_pieces : list piece :=
  [Plain (u16 "color: "); Directive [] (u16 "color.red");
   Plain (u16 ";" ++ [10%N] ++ u16 "background-color: ");
   Directive (u16 " ") (u16 "color.blue "); Plain (u16 ";")].

(** A call leaves the template and the swap data of the context alone. *)
Definition same_configuration (ctx ctx' : ProcessingContext) : Prop :=
  template ctx' = template ctx ∧ swapData ctx' = swapData ctx.

(** A word: not empty and without whitespace. *)
Definition is_word (s : str) : bool :=
  match s with
  | [] => false
  | _ => forallb (λ c, negb (is_space c)) s
  end.

(** * Lemmas *)

(** ** Results of [scan] *)

Lemma emit_nil r : emit [] r = r.
Proof. by destruct r as [|[[??]?]]. Qed.

Lemma emit_emit a b r : emit a (emit b r) = emit (a ++ b) r.
Proof. destruct r as [|[[??]?]]; simpl; [done|]. by rewrite app_assoc. Qed.

Lemma resume_emit T D out r text :
  resume T D (emit out r) text = emit out (resume T D r text).
Proof.
  destruct r as [|[[??]?]]; simpl; [done|]. by rewrite emit_emit.
Qed.

Lemma scan_cons T D f buf c text :
  scan T D f buf (c :: text) = resume T D (feed T D f buf c) text.
Proof. done. Qed.

Lemma scan_app T D f buf text1 text2 :
  scan T D f buf (text1 ++ text2) = resume T D (scan T D f buf text1) text2.
Proof.
  revert f buf. induction text1 as [|c text1 IH]; intros f buf.
  - simpl. by rewrite emit_nil.
  - simpl. destruct (feed T D f buf c) as [e|[[f' buf'] out]]; [done|].
    by rewrite IH, resume_emit.
Qed.

Lemma whitespaceConsumerState_neq f : f ≠ whitespaceConsumerState f.
Proof. induction f; congruence. Qed.

Lemma unread_nil ctx :
  ¬ nextIndex ctx < length (input ctx) → unread ctx = [].
Proof. intros. unfold unread. apply drop_ge. lia. Qed.

(** ** Splitting at a separator *)

Lemma split_from_join sep s acc k :
  sep ≠ [] → k ≤ length s →
  split_from sep s acc k ≠ [] ∧
  join sep (split_from sep s acc k) = acc ++ drop k s.
Proof.
  intros Hsep. revert acc k. induction s as [|c s IH]; intros acc k Hk.
  - simpl. by rewrite drop_nil, app_nil_r.
  - destruct k as [|k]; simpl.
    + unfold startsWith. case_bool_decide as Hpre.
      * destruct Hpre as [rest Hrest].
        destruct sep as [|c' sep]; [done|]. simpl in Hrest.
        injection Hrest as <- ->. simpl. rewrite Nat.sub_0_r.
        destruct (IH [] (length sep)) as [Hne Hjoin].
        { rewrite length_app. lia. }
        split; [done|]. rewrite Hjoin.
        destruct (split_from _ _ _ _); [done|].
        by rewrite drop_app_length.
      * destruct (IH (acc ++ [c]) 0) as [Hne Hjoin]; [lia|].
        split; [done|]. rewrite Hjoin. by rewrite <- app_assoc.
    + apply IH. simpl in Hk. lia.
Qed.

(** The segments of a path, joined with the separator, are the path. *)
Lemma split_join s sep : sep ≠ [] → join sep (split s sep) = s.
Proof.
  intros Hsep. unfold split. destruct sep as [|c sep]; [done|].
  by destruct (split_from_join (c :: sep) s [] 0) as [_ ->]; [|lia|].
Qed.

(** ** Trimming and the tokens of a template *)

Lemma trimStart_head s : starts_with_space (trimStart s) = false.
Proof.
  induction s as [|c s IH]; [done|]. simpl.
  destruct (is_space c) eqn:Hc; [done|]. simpl. by rewrite Hc.
Qed.

Lemma trimStart_snoc s c :
  is_space c = false → trimStart (s ++ [c]) = trimStart s ++ [c].
Proof.
  intros Hc. induction s as [|c' s IH]; simpl; [by rewrite Hc|].
  by destruct (is_space c').
Qed.

Lemma trimEnd_last s c : last (trimEnd s) = Some c → is_space c = false.
Proof.
  unfold trimEnd. rewrite last_reverse.
  pose proof (trimStart_head (reverse s)) as H.
  destruct (trimStart (reverse s)); [done|]. simpl in *. by intros [= <-].
Qed.

Lemma trimEnd_head s :
  starts_with_space s = false → starts_with_space (trimEnd s) = false.
Proof.
  destruct s as [|c s]; [done|]. simpl. intros Hc. unfold trimEnd.
  rewrite reverse_cons, trimStart_snoc by done.
  rewrite reverse_app. simpl. done.
Qed.

Lemma split_ws_from_nonempty s acc in_run :
  (∀ c, last s = Some c → is_space c = false) →
  acc ≠ [] ∨ (s ≠ [] ∧ (in_run = true ∨ starts_with_space s = false)) →
  Forall (λ token, token ≠ []) (split_ws_from s acc in_run).
Proof.
  revert acc in_run. induction s as [|c s IH]; intros acc in_run Hlast Hacc.
  - simpl. constructor; [|done]. destruct Hacc as [?|[? _]]; done.
  - assert (∀ c', last s = Some c' → is_space c' = false) as Hlast'.
    { intros c' Hc'. apply Hlast. destruct s; [done|]. done. }
    simpl. destruct (is_space c) eqn:Hc.
    + assert (s ≠ []) as Hs.
      { intros ->. specialize (Hlast c eq_refl). congruence. }
      destruct in_run.
      * apply IH; [done|]. right. split; [done|by left].
      * constructor.
        -- destruct Hacc as [?|[_ [?|Hh]]]; [done|done|].
           simpl in Hh. congruence.
        -- apply IH; [done|]. right. split; [done|by left].
    + apply IH; [done|]. left. by destruct acc.
Qed.

Lemma split_ws_from_no_space s acc in_run :
  forallb (λ c, negb (is_space c)) acc = true →
  Forall (λ token, forallb (λ c, negb (is_space c)) token = true)
    (split_ws_from s acc in_run).
Proof.
  revert acc in_run. induction s as [|c s IH]; intros acc in_run Hacc.
  - simpl. by constructor.
  - simpl. destruct (is_space c) eqn:Hc.
    + destruct in_run; [by apply IH|]. constructor; [done|]. by apply IH.
    + apply IH. rewrite forallb_app, Hacc. simpl. by rewrite Hc.
Qed.

(** The tokens of a template that [fromString] accepts are not empty and
    hold no whitespace. *)
Lemma fromString_tokens_wf string_ T :
  fromString string_ = inr T →
  Forall (λ token, token ≠ [] ∧
                   forallb (λ c, negb (is_space c)) token = true)
    [start T; separator T; end_ T].
Proof.
  unfold fromString.
  pose proof (split_ws_from_no_space (trim string_) [] false eq_refl) as Hsp.
  pose proof (split_ws_from_nonempty (trim string_) [] false) as Hne.
  fold (split_ws (trim string_)) in Hsp, Hne.
  case_bool_decide; [done|].
  destruct (split_ws (trim string_)) as [|a [|b [|c rest]]] eqn:Htok; try done.
  simpl in *. intros [= <-]. simpl.
  destruct rest; [|simpl in *; lia].
  assert (trim string_ ≠ []) as Htrim.
  { intros Hnil. rewrite Hnil in Htok. done. }
  apply Forall_and. split; [|done]. apply Hne.
  - apply trimEnd_last.
  - right. split; [done|]. right. apply trimEnd_head, trimStart_head.
Qed.

(** ** The state functions, one code unit at a time *)

Ltac unfold_setters :=
  unfold advance, set_nextIndex, set_stateBuffer, set_output, set_input in *;
  simpl in *.

Lemma set_nextIndex_same ctx k :
  k = nextIndex ctx → set_nextIndex k ctx = ctx.
Proof. intros ->. by destruct ctx. Qed.

Lemma whitespace_loop_scan T D g buf rest ctx :
  ∃ k, k ≤ length rest ∧
    whitespace_loop rest ctx
      = (set_nextIndex (nextIndex ctx + k) ctx, head (drop k rest)) ∧
    scan T D (whitespaceConsumerState g) buf rest
      = scan T D (whitespaceConsumerState g) buf (drop k rest) ∧
    (∀ c, head (drop k rest) = Some c → is_space c = false).
Proof.
  revert ctx. induction rest as [|c rest IH]; intros ctx.
  - exists 0. simpl. split_and!; [lia| |done|done].
    by rewrite set_nextIndex_same by lia.
  - destruct (is_space c) eqn:Hc.
    + destruct (IH (advance ctx)) as (k & Hk & Hloop & Hscan & Hhead).
      exists (S k). simpl. rewrite Hc, Hloop. split_and!; [lia| | |done].
      * f_equal. destruct ctx; unfold_setters. f_equal. lia.
      * by rewrite emit_nil.
    + exists 0. simpl. rewrite Hc. split_and!; [lia| |done|].
      * by rewrite set_nextIndex_same by lia.
      * by intros ? [= <-].
Qed.

Lemma lookingForDirective_loop_full rest ctx :
  ¬ length (stateBuffer ctx) < length (start (template ctx)) →
  lookingForDirective_loop rest ctx
    = Return ctx (whitespaceConsumerState inDirectiveState).
Proof. intros. destruct rest; simpl; by rewrite bool_decide_eq_false_2. Qed.

Lemma lookingForDirective_loop_scan rest ctx :
  let T := template ctx in
  let D := swapData ctx in
  length (stateBuffer ctx) < length (start T) →
  ∃ out buf idx f,
    lookingForDirective_loop rest ctx
      = Return (mkContext (input ctx) (output ctx ++ out) D T buf idx) f ∧
    ((f = lookingForDirectiveState ∧
      idx = S (nextIndex ctx + length rest) ∧
      scan T D lookingForDirectiveState (stateBuffer ctx) rest
        = inr (lookingForDirectiveState, buf, out)) ∨
     (f = whitespaceConsumerState inDirectiveState ∧
      ∃ k, k ≤ length rest ∧ idx = nextIndex ctx + k ∧
        scan T D lookingForDirectiveState (stateBuffer ctx) rest
          = emit out (scan T D (whitespaceConsumerState inDirectiveState) []
                        (drop k rest)))).
Proof.
  simpl. revert ctx. induction rest as [|c rest IH]; intros ctx Hlen.
  - exists [], (stateBuffer ctx), (S (nextIndex ctx)), lookingForDirectiveState.
    simpl. rewrite bool_decide_eq_true_2 by done. split.
    + destruct ctx; simpl. by rewrite app_nil_r.
    + left. split_and!; [done|lia|done].
  - simpl. rewrite !bool_decide_eq_true_2 by done.
    case_bool_decide as Hc.
    + (* the code unit extends the match *)
      set (ctx1 := set_stateBuffer _ _).
      case_bool_decide as Hfull.
      * destruct (IH ctx1) as (out & buf & idx & f & Hloop & Hscan).
        { simpl. rewrite length_app. simpl. lia. }
        exists out, buf, idx, f. split; [by rewrite Hloop|].
        simpl in Hscan. rewrite emit_nil.
        destruct Hscan as [(-> & -> & Hs)|(-> & k & Hk & -> & Hs)].
        -- left. split_and!; [done|lia|done].
        -- right. split; [done|]. exists (S k). split_and!; [lia|lia|done].
      * exists [], (stateBuffer ctx ++ [c]), (S (nextIndex ctx)),
          (whitespaceConsumerState inDirectiveState).
        rewrite lookingForDirective_loop_full.
        2:{ simpl. rewrite length_app. simpl. lia. }
        split; [by destruct ctx; simpl; rewrite app_nil_r|].
        right. split; [done|]. exists 1. simpl. rewrite drop_0.
        split_and!; [lia|lia|done].
    + (* the code unit breaks the match *)
      set (ctx1 := set_stateBuffer _ _).
      destruct (IH ctx1) as (out & buf & idx & f & Hloop & Hscan).
      { simpl. lia. }
      exists ((stateBuffer ctx ++ [c]) ++ out), buf, idx, f.
      split; [rewrite Hloop; simpl; by rewrite !app_assoc|].
      simpl in Hscan.
      destruct Hscan as [(-> & -> & Hs)|(-> & k & Hk & -> & Hs)].
      * left. split_and!; [done|lia|]. by rewrite Hs.
      * right. split; [done|]. exists (S k). split_and!; [lia|lia|].
        rewrite Hs. simpl. by rewrite emit_emit.
Qed.

Lemma inDirective_loop_unfold rest ctx :
  inDirective_loop rest ctx =
    if endsWith (stateBuffer ctx) (end_ (template ctx))
    then inDirective_resolve ctx
    else if bool_decide (1024 < length (stateBuffer ctx))
    then Throw ctx (Error directive_too_long)
    else
      match rest with
      | [] => Return (advance ctx) inDirectiveState
      | last :: rest' =>
          inDirective_loop rest'
            (set_stateBuffer (stateBuffer ctx ++ [last]) (advance ctx))
      end.
Proof. by destruct rest. Qed.

Lemma resume_inDirective_cons T D buf c rest :
  resume T D (inr (inDirectiveState, buf, [])) (c :: rest)
    = resume T D (inDirective_check T D (buf ++ [c])) rest.
Proof. unfold resume at 1. by rewrite emit_nil, scan_cons. Qed.

Lemma resume_nil T D f buf out :
  resume T D (inr (f, buf, out)) [] = inr (f, buf, out).
Proof. simpl. by rewrite app_nil_r. Qed.

Lemma inDirective_loop_scan rest ctx :
  let T := template ctx in
  let D := swapData ctx in
  match inDirective_loop rest ctx with
  | Throw _ e =>
      resume T D (inDirective_check T D (stateBuffer ctx)) rest = inl e
  | Return ctx' f =>
      ∃ out buf idx,
        ctx' = mkContext (input ctx) (output ctx ++ out) D T buf idx ∧
        ((f = inDirectiveState ∧
          idx = S (nextIndex ctx + length rest) ∧
          resume T D (inDirective_check T D (stateBuffer ctx)) rest
            = inr (inDirectiveState, buf, out)) ∨
         (f = lookingForDirectiveState ∧
          ∃ k, k ≤ length rest ∧ idx = nextIndex ctx + k ∧
            resume T D (inDirective_check T D (stateBuffer ctx)) rest
              = emit out (scan T D lookingForDirectiveState [] (drop k rest))))
  end.
Proof.
  cbv zeta. revert ctx. induction rest as [|c rest IH]; intros ctx;
    rewrite inDirective_loop_unfold; unfold inDirective_check;
    destruct (endsWith _ _) eqn:Hend.
  1,3: unfold inDirective_resolve;
    destruct (getValue _ _ _) as [e|value]; [done|];
    exists value, (stateBuffer ctx), (nextIndex ctx); (split; [done|]);
    right; (split; [done|]); exists 0; rewrite drop_0;
    split_and!; [lia|lia|done].
  - case_bool_decide; [done|].
    exists [], (stateBuffer ctx), (S (nextIndex ctx)).
    split; [by destruct ctx; unfold_setters; rewrite app_nil_r|].
    left. split_and!; [done|simpl; lia|by rewrite resume_nil].
  - case_bool_decide; [done|].
    set (ctx1 := set_stateBuffer _ _).
    specialize (IH ctx1). rewrite !resume_inDirective_cons.
    destruct (inDirective_loop rest ctx1) as [ctx' f|ctx' e]; [|done].
    destruct IH as (out & buf & idx & -> & IH).
    exists out, buf, idx. split; [done|].
    destruct IH as [(-> & -> & Hs)|(-> & k & Hk & -> & Hs)].
    + left. split_and!; [done|simpl; lia|done].
    + right. split; [done|]. exists (S k).
      split_and!; [simpl; lia|simpl; lia|done].
Qed.

(** ** The loop of [_transform], one code unit at a time *)

Lemma transform_loop_eq t :
  transform_loop t =
    if bool_decide (nextIndex (context t) < length (input (context t))) then
      match call (nextState t) (context t) with
      | Throw ctx e => Throw ctx e
      | Return ctx newState =>
          if decide (newState = nextState t)
          then transform_loop (mkTransform (nextState t) ctx)
          else transform_loop (mkTransform newState (set_stateBuffer [] ctx))
      end
    else Return (context t) (nextState t).
Proof.
  funelim (transform_loop t);
    repeat match goal with
      | H : bool_decide _ = _ |- _ => rewrite H
      | H : call _ _ = _ |- _ => rewrite H
      end; try done.
  - by rewrite decide_True.
  - by rewrite decide_False.
Qed.

Lemma agrees_emit ctx ctx' out r c :
  input ctx' = input ctx → output ctx' = output ctx ++ out →
  swapData ctx' = swapData ctx → template ctx' = template ctx →
  agrees ctx' r c → agrees ctx (emit out r) c.
Proof.
  intros Hi Ho Hd Ht. destruct r as [e|[[f buf] out']], c as [ctx1 f1|ctx1 e1];
    simpl; try done.
  intros [-> ->]. split; [done|]. rewrite Hi, Ho, Hd, Ht. simpl.
  by rewrite app_assoc.
Qed.

Lemma scan_looking_full T D buf text :
  text ≠ [] → ¬ length buf < length (start T) →
  scan T D lookingForDirectiveState buf text
    = scan T D (whitespaceConsumerState inDirectiveState) [] text.
Proof.
  intros Htext Hfull. destruct text as [|c text]; [done|].
  simpl. by rewrite bool_decide_eq_false_2.
Qed.

Lemma scan_whitespace_done T D g buf c text :
  is_space c = false →
  scan T D (whitespaceConsumerState g) buf (c :: text) = scan T D g [] (c :: text).
Proof. intros Hc. simpl. by rewrite Hc. Qed.

Lemma agrees_step ctx t' out r :
  r = emit out (scan (template (context t')) (swapData (context t'))
                  (nextState t') (stateBuffer (context t'))
                  (unread (context t'))) →
  input (context t') = input ctx →
  output (context t') = output ctx ++ out →
  swapData (context t') = swapData ctx →
  template (context t') = template ctx →
  agrees (context t')
    (scan (template (context t')) (swapData (context t')) (nextState t')
       (stateBuffer (context t')) (unread (context t')))
    (transform_loop t') →
  agrees ctx r (transform_loop t').
Proof. intros -> ????. by apply agrees_emit. Qed.

Lemma transform_loop_scan t :
  agrees (context t)
    (scan (template (context t)) (swapData (context t)) (nextState t)
       (stateBuffer (context t)) (unread (context t)))
    (transform_loop t).
Proof.
  remember (loop_measure (nextState t) (context t)) as n eqn:Hn.
  revert t Hn. induction (lt_wf n) as [n _ IH]. intros [f ctx] ->.
  rewrite transform_loop_eq. simpl. case_bool_decide as Hlt.
  2:{ rewrite unread_nil by done. simpl. split; [done|].
      destruct ctx; simpl. by rewrite app_nil_r. }
  destruct (unread ctx) as [|c rest] eqn:Hu.
  { apply (f_equal length) in Hu. unfold unread in Hu.
    rewrite length_drop in Hu. simpl in Hu. lia. }
  assert (∀ k, drop (nextIndex ctx + k) (input ctx) = drop k (c :: rest)) as Hdrop.
  { intros k. by rewrite <- drop_drop, <- Hu. }
  assert (length (c :: rest) = length (input ctx) - nextIndex ctx) as Hlen.
  { rewrite <- Hu. unfold unread. by rewrite length_drop. }
  destruct (call f ctx) as [ctx1 f1|ctx1 e] eqn:Hcall.
  - pose proof (call_progress _ _ _ _ Hlt Hcall) as [_ Hm].
    destruct f as [| |g]; simpl in Hcall.
    + (* lookingForDirectiveState *)
      unfold lookingForDirectiveState_body in Hcall. rewrite Hu in Hcall.
      destruct (decide (length (stateBuffer ctx) < length (start (template ctx))))
        as [Hpart|Hfull].
      * destruct (lookingForDirective_loop_scan (c :: rest) ctx Hpart)
          as (out & buf & idx & f & Hloop & Hs).
        rewrite Hloop in Hcall. injection Hcall as <- <-.
        destruct Hs as [(-> & -> & Hs)|(-> & k & Hk & -> & Hs)].
        -- rewrite decide_True by done.
           eapply (agrees_step _ (mkTransform _ _) out);
             [| | | | |eapply IH; [|reflexivity]; exact Hm]; try done.
           simpl. rewrite unread_nil by (simpl in *; lia).
           simpl. by rewrite app_nil_r.
        -- rewrite decide_False by done.
           eapply (agrees_step _ (mkTransform _ _) out);
             [| | | | |eapply IH; [|reflexivity]; exact Hm]; try done.
           simpl. unfold unread. simpl. by rewrite Hdrop.
      * rewrite lookingForDirective_loop_full in Hcall by done.
        injection Hcall as <- <-. rewrite decide_False by done.
        eapply (agrees_step _ (mkTransform _ _) []);
          [| | | | |eapply IH; [|reflexivity]; exact Hm]; try done.
        -- rewrite emit_nil. cbn [context nextState].
           change (unread (set_stateBuffer [] ctx)) with (unread ctx).
           rewrite Hu. by apply scan_looking_full.
        -- simpl. by rewrite app_nil_r.
    + (* inDirectiveState *)
      unfold inDirectiveState_body in Hcall. rewrite Hu in Hcall.
      cbv zeta in Hcall.
      pose proof (inDirective_loop_scan rest
        (set_stateBuffer (stateBuffer (advance ctx) ++ [c]) (advance ctx))) as Hs.
      rewrite Hcall in Hs. simpl in Hs.
      destruct Hs as (out & buf & idx & -> & Hs). rewrite scan_cons. simpl feed.
      destruct Hs as [(-> & -> & Hs)|(-> & k & Hk & -> & Hs)].
      * rewrite decide_True by done.
        eapply (agrees_step _ (mkTransform _ _) out);
          [| | | | |eapply IH; [|reflexivity]; exact Hm]; try done.
        simpl. rewrite unread_nil by (simpl in *; lia).
        simpl. by rewrite app_nil_r.
      * rewrite decide_False by done.
        eapply (agrees_step _ (mkTransform _ _) out);
          [| | | | |eapply IH; [|reflexivity]; exact Hm]; try done.
        simpl. unfold unread. simpl.
        replace (S (nextIndex ctx + k)) with (nextIndex ctx + S k) by lia.
        by rewrite Hdrop.
    + (* whitespaceConsumerState g *)
      unfold whitespaceConsumerState_body in Hcall. rewrite Hu in Hcall.
      destruct (whitespace_loop_scan (template ctx) (swapData ctx) g
                  (stateBuffer ctx) (c :: rest) ctx)
        as (k & Hk & Hloop & Hs & Hhead).
      rewrite Hloop in Hcall. rewrite Hs.
      destruct (drop k (c :: rest)) as [|c' rest'] eqn:Hk'; simpl in Hcall;
        injection Hcall as <- <-.
      * rewrite decide_True by done.
        eapply (agrees_step _ (mkTransform _ _) []);
          [| | | | |eapply IH; [|reflexivity]; exact Hm]; try done.
        -- simpl. unfold unread. simpl. by rewrite Hdrop, Hk'.
        -- simpl. by rewrite app_nil_r.
      * rewrite decide_False by apply whitespaceConsumerState_neq.
        eapply (agrees_step _ (mkTransform _ _) []);
          [| | | | |eapply IH; [|reflexivity]; exact Hm]; try done.
        -- rewrite emit_nil. cbn [context nextState].
           replace (unread _) with (c' :: rest')
             by (unfold unread; simpl; by rewrite Hdrop).
           by apply scan_whitespace_done, Hhead.
        -- simpl. by rewrite app_nil_r.
  - (* an exception *)
    destruct f as [| |g]; simpl in Hcall.
    + unfold lookingForDirectiveState_body in Hcall.
      destruct (decide (length (stateBuffer ctx) < length (start (template ctx))))
        as [Hpart|Hfull].
      * destruct (lookingForDirective_loop_scan (unread ctx) ctx Hpart)
          as (out & buf & idx & f & Hloop & _). congruence.
      * rewrite lookingForDirective_loop_full in Hcall by done. done.
    + unfold inDirectiveState_body in Hcall. rewrite Hu in Hcall.
      cbv zeta in Hcall.
      pose proof (inDirective_loop_scan rest
        (set_stateBuffer (stateBuffer (advance ctx) ++ [c]) (advance ctx))) as Hs.
      rewrite Hcall in Hs. simpl in Hs. rewrite scan_cons. simpl feed.
      by rewrite Hs.
    + unfold whitespaceConsumerState_body in Hcall.
      by destruct (whitespace_loop _ _) as [? []].
Qed.

(** ** [_transform] and the stream *)

Lemma _transform_scan t chunk :
  let ctx := context t in
  match scan (template ctx) (swapData ctx) (nextState t) (stateBuffer ctx) chunk with
  | inl e => ∃ ctx', _transform t chunk = Failed e ctx'
  | inr (f, buf, out) =>
      ∃ idx, _transform t chunk
        = Pushed (output ctx ++ out)
            (mkTransform f
               (mkContext chunk [] (swapData ctx) (template ctx) buf idx))
  end.
Proof.
  intros ctx. unfold _transform.
  pose proof (transform_loop_scan
    (mkTransform (nextState t) (set_nextIndex 0 (set_input chunk ctx)))) as H.
  cbn [context nextState] in H. unfold unread in H. simpl in H.
  fold ctx. destruct (scan _ _ _ _ _) as [e|[[f buf] out]],
    (transform_loop _) as [ctx' f'|ctx' e']; simpl in H; try done.
  - subst. by eexists.
  - destruct H as [-> ->]. by eexists.
Qed.

Lemma pipeline_scan t chunks :
  let ctx := context t in
  output ctx = [] →
  match scan (template ctx) (swapData ctx) (nextState t) (stateBuffer ctx)
          (concat chunks) with
  | inl e => ∃ emitted, pipeline t chunks = (emitted, inl e)
  | inr (f, buf, out) =>
      ∃ emitted t',
        pipeline t chunks = (emitted, inr t') ∧ concat emitted = out ∧
        nextState t' = f ∧ stateBuffer (context t') = buf ∧
        output (context t') = [] ∧
        template (context t') = template ctx ∧
        swapData (context t') = swapData ctx
  end.
Proof.
  simpl. revert t. induction chunks as [|chunk chunks IH]; intros t Hout.
  - simpl. by exists [], t.
  - simpl. rewrite scan_app.
    pose proof (_transform_scan t chunk) as Ht. simpl in Ht.
    destruct (scan _ _ _ _ chunk) as [e|[[f buf] out]].
    + destruct Ht as [ctx' ->]. by exists [].
    + destruct Ht as [idx ->]. rewrite Hout. simpl.
      set (t1 := mkTransform _ _). specialize (IH t1 eq_refl). simpl in IH.
      destruct (scan _ _ f buf (concat chunks)) as [e|[[f' buf'] out']]; simpl.
      * destruct IH as [emitted ->]. by eexists.
      * destruct IH as (emitted & t' & -> & <- & IH). by exists (out :: emitted), t'.
Qed.

(** ** Scanning a directive *)

Section directive.
Context (T : SwapDirectiveTemplate) (D : SwapData).

Lemma scan_start_from p q text :
  start T = p ++ q → q ≠ [] →
  scan T D lookingForDirectiveState p (q ++ text)
    = scan T D (whitespaceConsumerState inDirectiveState) [] text.
Proof.
  revert p. induction q as [|c q IH]; intros p Hstart Hq; [done|].
  assert (length (start T) = length p + S (length q)) as Hlen
    by (rewrite Hstart, length_app; done).
  simpl. rewrite bool_decide_eq_true_2 by lia.
  rewrite bool_decide_eq_true_2.
  2:{ rewrite Hstart. by rewrite lookup_app_r, Nat.sub_diag by lia. }
  destruct q as [|c' q].
  - rewrite bool_decide_eq_false_2 by (simpl in Hlen; lia). by rewrite emit_nil.
  - rewrite bool_decide_eq_true_2 by (simpl in Hlen; lia). rewrite emit_nil.
    apply IH; [|done]. by rewrite <- app_assoc.
Qed.

Lemma scan_start text :
  start T ≠ [] →
  scan T D lookingForDirectiveState [] (start T ++ text)
    = scan T D (whitespaceConsumerState inDirectiveState) [] text.
Proof. intros. by apply scan_start_from. Qed.

Lemma scan_start_partial p0 p q :
  start T = p0 ++ p ++ q → q ≠ [] →
  scan T D lookingForDirectiveState p0 p
    = inr (lookingForDirectiveState, p0 ++ p, []).
Proof.
  revert p0. induction p as [|c p IH]; intros p0 Hstart Hq.
  - simpl. by rewrite app_nil_r.
  - assert (length (start T) = length p0 + S (length p + length q)) as Hlen
      by (rewrite Hstart, !length_app; simpl; lia).
    assert (0 < length q) by (destruct q; [done|simpl; lia]).
    simpl. rewrite bool_decide_eq_true_2 by lia.
    rewrite bool_decide_eq_true_2.
    2:{ rewrite Hstart. by rewrite lookup_app_r, Nat.sub_diag by lia. }
    rewrite bool_decide_eq_true_2 by lia. rewrite emit_nil.
    rewrite (IH (p0 ++ [c])); [|by rewrite <- app_assoc|done].
    by rewrite <- app_assoc.
Qed.

Lemma scan_whitespace g buf ws text :
  forallb is_space ws = true →
  scan T D (whitespaceConsumerState g) buf (ws ++ text)
    = scan T D (whitespaceConsumerState g) buf text.
Proof.
  induction ws as [|c ws IH]; [done|]. simpl.
  intros [Hc Hws]%andb_prop. rewrite Hc. simpl. rewrite emit_nil. by apply IH.
Qed.

Lemma scan_enter_directive text :
  text ≠ [] → starts_with_space text = false →
  scan T D (whitespaceConsumerState inDirectiveState) [] text
    = scan T D inDirectiveState [] text.
Proof.
  destruct text as [|c text]; [done|]. simpl. by intros _ ->.
Qed.

Lemma find_end_pos e buf body n : find_end e buf body = Some n → 0 < n.
Proof.
  destruct body as [|c body]; [done|]. simpl.
  destruct (endsWith _ _); [intros [= <-]; lia|].
  destruct (find_end _ _ _); intros [= <-]. lia.
Qed.

(** The whole of [inDirectiveState], from a buffer within the limit. *)
Lemma scan_inDirective buf body :
  length buf ≤ 1024 →
  scan T D inDirectiveState buf body =
    match find_end (end_ T) buf body with
    | Some n =>
        if bool_decide (length buf + n ≤ 1025)
        then resume T D (resolved T D (buf ++ take n body)) (drop n body)
        else inl (Error directive_too_long)
    | None =>
        if bool_decide (length buf + length body ≤ 1024)
        then inr (inDirectiveState, buf ++ body, [])
        else inl (Error directive_too_long)
    end.
Proof.
  revert buf. induction body as [|c body IH]; intros buf Hbuf.
  - simpl. rewrite bool_decide_eq_true_2 by lia. by rewrite app_nil_r.
  - rewrite scan_cons. simpl feed. simpl find_end. unfold inDirective_check.
    destruct (endsWith _ _) eqn:Hend.
    + rewrite bool_decide_eq_true_2 by lia. simpl take. simpl drop.
      by rewrite drop_0, take_0.
    + case_bool_decide as Hlong.
      * rewrite length_app in Hlong. simpl in *.
        destruct (find_end _ _ _) as [n|] eqn:Hn; simpl.
        -- apply find_end_pos in Hn. by rewrite bool_decide_eq_false_2 by lia.
        -- by rewrite bool_decide_eq_false_2 by lia.
      * rewrite length_app in Hlong. simpl in Hlong.
        unfold resume at 1. rewrite emit_nil, IH by (rewrite length_app; simpl; lia).
        rewrite length_app. simpl length.
        destruct (find_end _ _ _) as [n|] eqn:Hn; simpl.
        -- rewrite <- app_assoc. simpl.
           repeat case_bool_decide; try lia; done.
        -- rewrite <- app_assoc. simpl.
           repeat case_bool_decide; try lia; done.
Qed.

End directive.

Lemma non_nullish_TypeError valuePath segment newValue e :
  non_nullish valuePath segment newValue = inl e →
  ∃ message, e = TypeError message.
Proof. destruct newValue; intros [= <-]; by eexists. Qed.

Lemma getValue_body_TypeError R valuePath value segment e :
  getValue_body R valuePath value segment = inl e →
  ∃ message, e = TypeError message.
Proof.
  destruct value as [[leaf|children]|id]; simpl.
  - intros [= <-]. by eexists.
  - destruct (children !! segment); [done|]. apply non_nullish_TypeError.
  - apply non_nullish_TypeError.
Qed.

Lemma getValue_TypeError D valuePath sep e :
  getValue D valuePath sep = inl e → ∃ message, e = TypeError message.
Proof.
  unfold getValue.
  assert (∀ segments value e,
    getValue_loop (realm D) valuePath value segments = inl e →
    ∃ message, e = TypeError message) as Hloop.
  { induction segments as [|segment segments IH]; intros value e'; [done|].
    simpl. destruct (getValue_body _ _ _ _) as [e''|newValue] eqn:Hbody.
    - intros [= <-]. by eapply getValue_body_TypeError.
    - apply IH. }
  destruct (getValue_loop _ _ _ _) as [e'|[[|]|]] eqn:Hg.
  - intros [= <-]. by eapply Hloop.
  - done.
  - intros [= <-]. by eexists.
  - intros [= <-]. by eexists.
Qed.

(** ** The tests of the repository

    The cases of [tests/swap-transform.test.js] whose texts hold no double
    quote, run on the embedding: each gives what the test asserts. *)

Lemma replace_tests :
  written (pipeline (new_SwapTransform config angle_template) [frame_rate_text])
    = u16 "The frame rate is 60!" ∧
  written (pipeline (new_SwapTransform colors bang_template)
             [u16 "The color is <!  color.red   !>"])
    = u16 "The color is #ff0000" ∧
  written (pipeline
             (new_SwapTransform colors (mkTemplate (u16 "!") (u16 "@") (u16 "!")))
             [u16 "!color@red!"])
    = u16 "#ff0000" ∧
  written (pipeline
             (new_SwapTransform colors (mkTemplate (u16 "<!") (u16 "->") (u16 "!>")))
             [u16 "<!color->red!>"])
    = u16 "#ff0000" ∧
  written (pipeline (new_SwapTransform two_colors bang_template)
             [u16 "color: <!color.red!>;" ++ [10%N]
              ++ u16 "background-color: <!color.blue!>;"])
    = u16 "color: #ff0000;" ++ [10%N] ++ u16 "background-color: #0000ff;" ∧
  written (pipeline (new_SwapTransform config angle_template)
             (chars frame_rate_text))
    = u16 "The frame rate is 60!" ∧
  (pipeline
     (new_SwapTransform (literal {[ u16 "color" := DataRecord ∅ ]}) bang_template)
     [u16 "<!color.red!>"]).2
    = inl (TypeError (non_existent_key (u16 "red") (u16 "color.red"))) ∧
  (pipeline
     (new_SwapTransform
        (literal {[ u16 "color" := DataRecord {[ u16 "dark" := DataRecord
           {[ u16 "red" := DataLeafNode (u16 "#ff0000") ]} ]} ]}) bang_template)
     [u16 "<!color.dark!>"]).2
    = inl (TypeError (no_leaf_reached (u16 "color.dark"))) ∧
  (pipeline (new_SwapTransform colors bang_template) [u16 "<!color.red.dark!>"]).2
    = inl (TypeError (index_into_leaf (u16 "color.red.dark"))).
Proof. split_and!; by vm_compute. Qed.

(** * Chunking *)

(** C1.  Whatever the template and the data, two chunkings of one text
    give the same concatenated output whenever the first is processed to
    the end without an error, and then the second is processed without an
    error as well.  With the template [>>< . <<>] and the data
    [{"config": {"graphics": {"framerate": "60"}}}], the text
    [The frame rate is >><config.graphics.framerate<<>!] fed one code
    unit at a time comes out as [The frame rate is 60!]. *)
Theorem chunking_invariance T D chunks1 chunks2 emitted1 t1 :
  concat chunks1 = concat chunks2 →
  pipeline (new_SwapTransform D T) chunks1 = (emitted1, inr t1) →
  (∃ emitted2 t2,
     pipeline (new_SwapTransform D T) chunks2 = (emitted2, inr t2) ∧
     concat emitted2 = concat emitted1) ∧
  fromString (u16 ">>< . <<>") = inr angle_template ∧
  ∃ emitted t,
    pipeline (new_SwapTransform config angle_template) (chars frame_rate_text)
      = (emitted, inr t) ∧
    concat emitted = u16 "The frame rate is 60!".
Proof.
  intros Hconcat Hrun. split.
  - pose proof (pipeline_scan (new_SwapTransform D T) chunks1 eq_refl) as H1.
    pose proof (pipeline_scan (new_SwapTransform D T) chunks2 eq_refl) as H2.
    simpl in H1, H2. rewrite <- Hconcat in H2.
    destruct (scan _ _ _ _ _) as [e|[[f buf] out]].
    + destruct H1 as [emitted H1]. congruence.
    + destruct H1 as (emitted & t' & H1 & <- & _).
      destruct H2 as (emitted2 & t2 & H2 & Hout & _).
      exists emitted2, t2. split; [done|]. congruence.
  - split; [by vm_compute|]. eexists _, _. split; vm_compute; reflexivity.
Qed.

Lemma chunking_invariance_witness :
  ∃ emitted1 t1,
    concat [frame_rate_text] = concat (chars frame_rate_text) ∧
    pipeline (new_SwapTransform config angle_template) [frame_rate_text]
      = (emitted1, inr t1) ∧
    ∃ emitted2 t2,
      pipeline (new_SwapTransform config angle_template) (chars frame_rate_text)
        = (emitted2, inr t2) ∧
      concat emitted2 = concat emitted1.
Proof.
  eexists _, _.
  assert (concat [frame_rate_text] = concat (chars frame_rate_text)) as Hc
    by (vm_compute; reflexivity).
  split; [exact Hc|]. split; [vm_compute; reflexivity|].
  refine (proj1 (chunking_invariance angle_template config
    [frame_rate_text] (chars frame_rate_text) _ _ Hc _)).
  vm_compute. reflexivity.
Defined.

(** * Directives *)

Lemma slice_0_neg_app raw e :
  e ≠ [] → slice_0_neg (raw ++ e) (length e) = raw.
Proof.
  intros He. unfold slice_0_neg. destruct e as [|c e]; [done|].
  rewrite length_app.
  replace (length raw + length (c :: e) - length (c :: e)) with (length raw) by lia.
  by rewrite take_app_length.
Qed.

(** From between directives to the first code unit of the path. *)
Lemma scan_open_directive T D ws text :
  start T ≠ [] → forallb is_space ws = true →
  text ≠ [] → starts_with_space text = false →
  scan T D lookingForDirectiveState [] (start T ++ ws ++ text)
    = scan T D inDirectiveState [] text.
Proof.
  intros. by rewrite scan_start, scan_whitespace, scan_enter_directive.
Qed.

(** C9.  After the start token, whitespace is skipped up to the first
    other code unit, in whatever chunks it arrives; when the end token is
    found the resolver receives what was buffered before the end token,
    trimmed; its value is all that is emitted, and its failure is the
    failure of the stream.  With the template [<! . !>] the directive
    [<!  color.red   !>] resolves the path [color.red]. *)
Theorem directive_path t chunks ws raw :
  let T := template (context t) in
  let D := swapData (context t) in
  scanning t → start T ≠ [] → end_ T ≠ [] →
  forallb is_space ws = true →
  starts_with_space (raw ++ end_ T) = false →
  find_end (end_ T) [] (raw ++ end_ T) = Some (length (raw ++ end_ T)) →
  length (raw ++ end_ T) ≤ 1025 →
  concat chunks = start T ++ ws ++ raw ++ end_ T →
  match getValue D (trim raw) (separator T) with
  | inl e => ∃ emitted, pipeline t chunks = (emitted, inl e)
  | inr value =>
      ∃ emitted t',
        pipeline t chunks = (emitted, inr t') ∧ concat emitted = value ∧
        scanning t'
  end ∧
  trim (u16 "  color.red   ") = u16 "color.red" ∧
  ∃ emitted t',
    pipeline (new_SwapTransform colors bang_template)
      [u16 "The color is <!  color.red   !>"] = (emitted, inr t') ∧
    concat emitted = u16 "The color is #ff0000".
Proof.
  intros T D (Hstate & Hbuf & Hout) Hstart Hend Hws Hhead Hfind Hlen Hconcat.
  split.
  - pose proof (pipeline_scan t chunks Hout) as H. simpl in H.
    rewrite Hstate, Hbuf, Hconcat in H. fold T D in H.
    rewrite scan_open_directive in H; [|done|done| |done].
    2:{ destruct raw; [|done]. by destruct (end_ T). }
    rewrite scan_inDirective in H by (simpl; lia).
    rewrite Hfind in H. rewrite bool_decide_eq_true_2 in H by (simpl; lia).
    rewrite firstn_all, drop_all in H. unfold resolved in H. simpl in H.
    rewrite slice_0_neg_app in H by done.
    destruct (getValue D (trim raw) (separator T)) as [e|value]; [done|].
    simpl in H. rewrite app_nil_r in H.
    destruct H as (emitted & t' & Hrun & Hval & Hs & Hb & Ho & _).
    by exists emitted, t'.
  - split; [by vm_compute|]. eexists _, _. split; vm_compute; reflexivity.
Qed.

Lemma directive_path_witness :
  ∃ emitted t',
    pipeline (new_SwapTransform colors bang_template)
      (chars (u16 "<!  color.red   !>")) = (emitted, inr t') ∧
    concat emitted = u16 "#ff0000" ∧ scanning t'.
Proof.
  refine (proj1 (directive_path (new_SwapTransform colors bang_template)
    (chars (u16 "<!  color.red   !>")) (u16 "  ") (u16 "color.red   ")
    _ _ _ _ _ _ _ _)).
  - by vm_compute.
  - by vm_compute.
  - by vm_compute.
  - by vm_compute.
  - by vm_compute.
  - by vm_compute.
  - vm_compute. lia.
  - by vm_compute.
Defined.

Lemma find_end_take_None e buf body n :
  find_end e buf (take n body) = None → n ≤ length body →
  ∀ m, find_end e buf body = Some m → n < m.
Proof.
  revert buf body. induction n as [|n IH]; intros buf body Hnone Hn m Hm.
  - by apply find_end_pos in Hm.
  - destruct body as [|c body]; [done|]. simpl in *.
    destruct (endsWith _ _); [done|].
    destruct (find_end e (buf ++ [c]) (take n body)) eqn:Ht; [done|].
    destruct (find_end e (buf ++ [c]) body) as [m'|] eqn:Hb; [|done].
    injection Hm as <-. apply (IH _ _ Ht) in Hb; lia.
Qed.

(** C5.  A directive whose buffer passes 1024 code units before it has
    ever ended with the end token fails the stream with the error that
    says so, in whatever chunks it arrives and whatever follows; one that
    reaches the end token within 1024 code units never raises an [Error]
    (a failure of the resolver is a [TypeError]). *)
Theorem directive_too_long_limit t chunks ws body :
  let T := template (context t) in
  scanning t → start T ≠ [] →
  forallb is_space ws = true →
  starts_with_space body = false →
  concat chunks = start T ++ ws ++ body →
  (1024 < length body →
   find_end (end_ T) [] (take 1025 body) = None →
   ∃ emitted, pipeline t chunks = (emitted, inl (Error directive_too_long))) ∧
  (length body ≤ 1024 →
   find_end (end_ T) [] body = Some (length body) →
   ∀ emitted message, pipeline t chunks ≠ (emitted, inl (Error message))).
Proof.
  intros T (Hstate & Hbuf & Hout) Hstart Hws Hhead Hconcat.
  pose proof (pipeline_scan t chunks Hout) as H. simpl in H.
  rewrite Hstate, Hbuf, Hconcat in H. fold T in H.
  split.
  - intros Hlen Hfind.
    rewrite scan_open_directive in H; [|done|done| |done].
    2:{ destruct body; [simpl in Hlen; lia|done]. }
    rewrite scan_inDirective in H by (simpl; lia).
    destruct (find_end (end_ T) [] body) as [m|] eqn:Hm.
    + eapply find_end_take_None in Hm; [|done|lia].
      by rewrite bool_decide_eq_false_2 in H by (simpl; lia).
    + by rewrite bool_decide_eq_false_2 in H by (simpl; lia).
  - intros Hlen Hfind emitted message Hrun.
    assert (body ≠ []) as Hne.
    { intros ->. done. }
    rewrite scan_open_directive in H by done.
    rewrite scan_inDirective in H by (simpl; lia).
    rewrite Hfind in H. rewrite bool_decide_eq_true_2 in H by (simpl; lia).
    rewrite firstn_all, drop_all in H. unfold resolved in H.
    destruct (getValue _ _ _) as [e|value] eqn:Hval; simpl in H.
    + destruct H as [emitted' H]. rewrite Hrun in H. injection H as _ <-.
      by apply getValue_TypeError in Hval as [message' [=]].
    + destruct H as (emitted' & t' & H & _). congruence.
Qed.

Lemma directive_too_long_limit_witness :
  (∃ emitted,
     pipeline (new_SwapTransform colors bang_template)
       [u16 "<! " ++ replicate 1025 120%N; u16 "!>"]
     = (emitted, inl (Error directive_too_long))) ∧
  (∀ emitted message,
     pipeline (new_SwapTransform colors bang_template)
       [u16 "<! " ++ replicate 1022 120%N; u16 "!>"]
     ≠ (emitted, inl (Error message))).
Proof.
  split.
  - refine (proj1 (directive_too_long_limit
      (new_SwapTransform colors bang_template)
      [u16 "<! " ++ replicate 1025 120%N; u16 "!>"] (u16 " ")
      (replicate 1025 120%N ++ u16 "!>") _ _ _ _ _) _ _).
    + by vm_compute.
    + by vm_compute.
    + by vm_compute.
    + by vm_compute.
    + by vm_compute.
    + vm_compute. lia.
    + by vm_compute.
  - refine (proj2 (directive_too_long_limit
      (new_SwapTransform colors bang_template)
      [u16 "<! " ++ replicate 1022 120%N; u16 "!>"] (u16 " ")
      (replicate 1022 120%N ++ u16 "!>") _ _ _ _ _) _ _).
    + by vm_compute.
    + by vm_compute.
    + by vm_compute.
    + by vm_compute.
    + by vm_compute.
    + vm_compute. lia.
    + by vm_compute.
Defined.

(** * What the scanner holds back *)

Lemma occurs_app needle before after :
  occurs needle (before ++ needle ++ after) = true.
Proof.
  induction before as [|c before IH].
  - assert (startsWith (needle ++ after) needle = true) as Hs.
    { apply bool_decide_eq_true_2. by apply prefix_app_r. }
    simpl. destruct (needle ++ after); simpl; by rewrite Hs.
  - simpl. rewrite IH. by rewrite orb_true_r.
Qed.

(** While the start token has not occurred, every code unit read is either
    in the output or in the buffer, in order, and the buffer is a part of
    the start token. *)
Lemma scan_looking_conservation T D text buf :
  buf `prefix_of` start T → length buf < length (start T) →
  (∃ buf' out,
     scan T D lookingForDirectiveState buf text
       = inr (lookingForDirectiveState, buf', out) ∧
     out ++ buf' = buf ++ text ∧
     buf' `prefix_of` start T ∧ length buf' < length (start T)) ∨
  occurs (start T) (buf ++ text) = true.
Proof.
  revert buf. induction text as [|c text IH]; intros buf Hpre Hlen.
  - left. exists buf, []. simpl. by rewrite app_nil_r.
  - simpl. rewrite bool_decide_eq_true_2 by done.
    case_bool_decide as Hc.
    + assert ((buf ++ [c]) `prefix_of` start T) as Hpre'.
      { destruct Hpre as [q Hq]. rewrite Hq in Hc |- *.
        rewrite lookup_app_r, Nat.sub_diag in Hc by lia.
        destruct q as [|c' q]; [done|]. injection Hc as ->.
        exists q. by rewrite <- app_assoc. }
      case_bool_decide as Hfull.
      * rewrite emit_nil.
        destruct (IH (buf ++ [c]) Hpre') as [(buf' & out & -> & Hcons & H)|Hocc].
        { rewrite length_app. simpl. lia. }
        -- left. exists buf', out. split; [done|].
           rewrite Hcons. by rewrite <- app_assoc.
        -- right. by rewrite <- app_assoc in Hocc.
      * right. destruct Hpre' as [q Hq].
        assert (q = []) as ->.
        { apply (f_equal length) in Hq. rewrite !length_app in Hq.
          simpl in Hq. destruct q; [done|simpl in Hq; lia]. }
        rewrite app_nil_r in Hq. rewrite Hq.
        replace (buf ++ c :: text) with ([] ++ (buf ++ [c]) ++ text)
          by (by rewrite <- app_assoc).
        apply occurs_app.
    + destruct (IH [] (prefix_nil _)) as [(buf' & out & -> & Hcons & H)|Hocc];
        [simpl; lia| |].
      * left. exists buf', ((buf ++ [c]) ++ out). split; [done|].
        rewrite <- !app_assoc. simpl in *. by rewrite Hcons.
      * right. simpl in Hocc.
        replace (buf ++ c :: text) with ((buf ++ [c]) ++ text)
          by (by rewrite <- app_assoc).
        clear -Hocc. induction (buf ++ [c]) as [|c' l IHl]; [done|].
        simpl. rewrite IHl. by rewrite orb_true_r.
Qed.

(** C10.  The end of the input emits nothing and reports nothing, so what
    the buffer holds then never reaches the output.  As long as the start
    token has not occurred in the text, the output is the text without the
    buffered end of it; a text that is a proper part of the start token is
    buffered whole; and a directive that is opened and not yet closed, with
    its buffer within the limit, is buffered whole.  In each case the
    stream ends without an error. *)
Theorem end_of_input_discards_buffer t chunks :
  let T := template (context t) in
  scanning t → start T ≠ [] →
  (occurs (start T) (concat chunks) = false →
   ∃ emitted t',
     pipeline t chunks = (emitted, inr t') ∧
     nextState t' = lookingForDirectiveState ∧
     concat emitted ++ stateBuffer (context t') = concat chunks ∧
     stateBuffer (context t') `prefix_of` start T) ∧
  (∀ q, q ≠ [] → start T = concat chunks ++ q →
   ∃ emitted t',
     pipeline t chunks = (emitted, inr t') ∧
     concat emitted = [] ∧ stateBuffer (context t') = concat chunks) ∧
  (∀ ws body,
     forallb is_space ws = true → body ≠ [] → starts_with_space body = false →
     find_end (end_ T) [] body = None → length body ≤ 1024 →
     concat chunks = start T ++ ws ++ body →
     ∃ emitted t',
       pipeline t chunks = (emitted, inr t') ∧
       concat emitted = [] ∧ nextState t' = inDirectiveState ∧
       stateBuffer (context t') = body).
Proof.
  intros T (Hstate & Hbuf & Hout) Hstart.
  pose proof (pipeline_scan t chunks Hout) as H. simpl in H.
  rewrite Hstate, Hbuf in H. fold T in H. split_and!.
  - intros Hocc.
    destruct (scan_looking_conservation T (swapData (context t))
                (concat chunks) [] (prefix_nil _))
      as [(buf' & out & Hs & Hcons & Hpre & _)|Hocc'].
    { destruct (start T); [done|simpl; lia]. }
    + rewrite Hs in H. destruct H as (emitted & t' & Hrun & Hem & Hst & Hb & _).
      exists emitted, t'. rewrite Hem, Hb. by rewrite app_nil_l in Hcons.
    + simpl in Hocc'. congruence.
  - intros q Hq Hsplit.
    rewrite (scan_start_partial T _ [] (concat chunks) q) in H by done.
    destruct H as (emitted & t' & Hrun & Hem & _ & Hb & _). by exists emitted, t'.
  - intros ws body Hws Hne Hhead Hfind Hlen Hconcat.
    rewrite Hconcat in H. rewrite scan_open_directive in H by done.
    rewrite scan_inDirective in H by (simpl; lia).
    rewrite Hfind in H. rewrite bool_decide_eq_true_2 in H by (simpl; lia).
    destruct H as (emitted & t' & Hrun & Hem & Hs & Hb & _).
    rewrite app_nil_l in Hb. by exists emitted, t'.
Qed.

Lemma end_of_input_discards_buffer_witness :
  (∃ emitted t',
     pipeline (new_SwapTransform colors bang_template) [u16 "a <"; u16 " b<"]
       = (emitted, inr t') ∧
     nextState t' = lookingForDirectiveState ∧
     concat emitted ++ stateBuffer (context t') = u16 "a < b<" ∧
     stateBuffer (context t') `prefix_of` u16 "<!") ∧
  (∃ emitted t',
     pipeline (new_SwapTransform colors bang_template) [u16 "<"]
       = (emitted, inr t') ∧
     concat emitted = [] ∧ stateBuffer (context t') = u16 "<") ∧
  (∃ emitted t',
     pipeline (new_SwapTransform colors bang_template) [u16 "<! col"; u16 "or.red"]
       = (emitted, inr t') ∧
     concat emitted = [] ∧ nextState t' = inDirectiveState ∧
     stateBuffer (context t') = u16 "color.red").
Proof.
  split_and!.
  - refine (proj1 (end_of_input_discards_buffer
      (new_SwapTransform colors bang_template) [u16 "a <"; u16 " b<"] _ _) _);
      by vm_compute.
  - refine (proj1 (proj2 (end_of_input_discards_buffer
      (new_SwapTransform colors bang_template) [u16 "<"] _ _)) (u16 "!") _ _);
      by vm_compute.
  - refine (proj2 (proj2 (end_of_input_discards_buffer
      (new_SwapTransform colors bang_template) [u16 "<! col"; u16 "or.red"] _ _))
      (u16 " ") (u16 "color.red") _ _ _ _ _ _); try by vm_compute.
    vm_compute. lia.
Defined.

(** * Errors *)

Lemma feed_error T D f buf c e :
  feed T D f buf c = inl e →
  e = Error directive_too_long ∨
  ∃ valuePath, getValue D valuePath (separator T) = inl e.
Proof.
  assert (∀ b, inDirective_check T D b = inl e →
    e = Error directive_too_long ∨
    ∃ valuePath, getValue D valuePath (separator T) = inl e) as Hcheck.
  { intros b. unfold inDirective_check. destruct (endsWith _ _).
    - destruct (getValue _ _ _) as [e'|] eqn:Hg; [|done].
      intros [= <-]. right. by eexists.
    - case_bool_decide; [|done]. intros [= <-]. by left. }
  revert buf. induction f as [| |g IH]; intros buf; simpl.
  - repeat case_bool_decide; try done. destruct (is_space c); [done|]. apply Hcheck.
  - apply Hcheck.
  - destruct (is_space c); [done|]. apply IH.
Qed.

Lemma scan_error T D f buf text e :
  scan T D f buf text = inl e →
  e = Error directive_too_long ∨
  ∃ valuePath, getValue D valuePath (separator T) = inl e.
Proof.
  revert f buf. induction text as [|c text IH]; intros f buf; [done|].
  simpl. destruct (feed T D f buf c) as [e'|[[f' buf'] out]] eqn:Hfeed.
  - intros [= <-]. by eapply feed_error.
  - destruct (scan T D f' buf' text) as [e'|[[??]?]] eqn:Hscan; [|done].
    intros [= <-]. by eapply IH.
Qed.

(** C7.  When the stream ends with an error, one chunk made [_transform]
    fail; what was emitted is what the chunks before it pushed, one
    emission for each, and nothing for the failing chunk or for those
    after it, although the context then holds the output accumulated up to
    the error.  The error is the one of a directive that is too long or
    one of the resolver. *)
Theorem error_ends_stream t chunks emitted e :
  pipeline t chunks = (emitted, inl e) →
  (∃ before chunk after t1 ctx',
     chunks = before ++ chunk :: after ∧
     pipeline t before = (emitted, inr t1) ∧
     length emitted = length before ∧
     _transform t1 chunk = Failed e ctx') ∧
  (output (context t) = [] →
   e = Error directive_too_long ∨
   ∃ valuePath,
     getValue (swapData (context t)) valuePath (separator (template (context t)))
       = inl e) ∧
  ∃ ctx',
    _transform (new_SwapTransform colors bang_template) (u16 "ab<!x!>cd")
      = Failed (TypeError (non_existent_key (u16 "x") (u16 "x"))) ctx' ∧
    output ctx' = u16 "ab" ∧
    pipeline (new_SwapTransform colors bang_template) [u16 "ab<!x!>cd"; u16 "ef"]
      = ([], inl (TypeError (non_existent_key (u16 "x") (u16 "x")))).
Proof.
  intros Hrun. split_and!.
  - revert t emitted Hrun.
    induction chunks as [|chunk chunks IH]; intros t emitted; [done|].
    simpl. destruct (_transform t chunk) as [data t1|e' ctx'] eqn:Ht.
    + destruct (pipeline t1 chunks) as [emitted' r] eqn:Hp.
      intros [= <- ->].
      destruct (IH _ _ Hp) as (before & c & after & t2 & ctx' & -> & Hb & Hl & Hf).
      exists (chunk :: before), c, after, t2, ctx'. simpl.
      rewrite Ht, Hb. by rewrite Hl.
    + intros [= <- <-]. by exists [], chunk, chunks, t, ctx'.
  - intros Hout. pose proof (pipeline_scan t chunks Hout) as H. simpl in H.
    destruct (scan _ _ _ _ _) as [e'|[[f buf] out]] eqn:Hscan.
    + destruct H as [emitted' H]. rewrite Hrun in H. injection H as _ ->.
      by eapply scan_error.
    + destruct H as (emitted' & t' & H & _). congruence.
  - eexists. split_and!; vm_compute; reflexivity.
Qed.

Lemma error_ends_stream_witness :
  ∃ before chunk after t1 ctx',
    chars (u16 "ab<!x!>cd") = before ++ chunk :: after ∧
    pipeline (new_SwapTransform colors bang_template) before
      = ([u16 "a"; u16 "b"; []; []; []; []], inr t1) ∧
    length [u16 "a"; u16 "b"; []; []; []; ([] : list N)] = length before ∧
    _transform t1 chunk
      = Failed (TypeError (non_existent_key (u16 "x") (u16 "x"))) ctx'.
Proof.
  refine (proj1 (error_ends_stream (new_SwapTransform colors bang_template)
    (chars (u16 "ab<!x!>cd")) [u16 "a"; u16 "b"; []; []; []; []]
    (TypeError (non_existent_key (u16 "x") (u16 "x"))) _)).
  by vm_compute.
Defined.

(** * The buffer across states and chunks *)

(** C6.  In every iteration of the loop the buffer is emptied when the
    state function returns a different state function, and is left as the
    state function left it when it returns itself.  A state suspended at
    the end of a chunk resumes with its buffer: however a text is cut into
    chunks, the stream ends in the same state function with the same
    buffer (and the same output) as for the text in one chunk, or fails
    with the same error; this from every state and buffer. *)
Theorem stateBuffer_discipline t chunks :
  (∀ ctx' f',
     nextIndex (context t) < length (input (context t)) →
     call (nextState t) (context t) = Return ctx' f' →
     (f' ≠ nextState t →
      transform_loop t = transform_loop (mkTransform f' (set_stateBuffer [] ctx'))) ∧
     (f' = nextState t →
      transform_loop t = transform_loop (mkTransform f' ctx'))) ∧
  (output (context t) = [] →
   match pipeline t [concat chunks] with
   | (emitted, inr t') =>
       ∃ emitted2 t2,
         pipeline t chunks = (emitted2, inr t2) ∧
         concat emitted2 = concat emitted ∧
         nextState t2 = nextState t' ∧
         stateBuffer (context t2) = stateBuffer (context t')
   | (_, inl e) => ∃ emitted2, pipeline t chunks = (emitted2, inl e)
   end).
Proof.
  split.
  - intros ctx' f' Hlt Hcall. rewrite (transform_loop_eq t).
    rewrite bool_decide_eq_true_2, Hcall by done.
    split; intros Hf; [by rewrite decide_False|rewrite decide_True by done].
    by rewrite Hf.
  - intros Hout.
    pose proof (pipeline_scan t [concat chunks] Hout) as H1.
    pose proof (pipeline_scan t chunks Hout) as H2.
    cbv zeta in H1, H2.
    change (concat [concat chunks]) with (concat chunks ++ []) in H1.
    rewrite app_nil_r in H1.
    destruct (scan _ _ _ _ _) as [e|[[f buf] out]].
    + destruct H1 as [emitted1 H1]. by rewrite H1.
    + destruct H1 as (emitted1 & t1 & H1 & Hem1 & Hs1 & Hb1 & _).
      destruct H2 as (emitted2 & t2 & H2 & Hem2 & Hs2 & Hb2 & _).
      rewrite H1. exists emitted2, t2. split_and!; [done|congruence..].
Qed.

Lemma stateBuffer_discipline_witness :
  ∃ emitted2 t2,
    pipeline (new_SwapTransform colors bang_template)
      [u16 "red: <"; u16 "! col"; u16 "or.r"] = (emitted2, inr t2) ∧
    concat emitted2 = concat [u16 "red: "] ∧
    nextState t2 = inDirectiveState ∧
    stateBuffer (context t2) = u16 "color.r".
Proof.
  refine (proj2 (stateBuffer_discipline
    (new_SwapTransform colors bang_template)
    [u16 "red: <"; u16 "! col"; u16 "or.r"]) _).
  reflexivity.
Defined.

(** * The resolver *)

Lemma walk_app node1 segments1 node2 segments2 node3 :
  walk node1 segments1 node2 → walk node2 segments2 node3 →
  walk node1 (segments1 ++ segments2) node3.
Proof.
  induction 1 as [|children segment child segments node Hlook Hwalk IH];
    intros H2; [done|].
  simpl. econstructor; [done|]. by apply IH.
Qed.

Lemma getValue_loop_walk R valuePath value segments node :
  walk value segments node →
  getValue_loop R valuePath (OfData value) segments = inr (OfData node).
Proof.
  induction 1 as [|children segment child segments node Hlook Hwalk IH];
    [done|].
  simpl. by rewrite Hlook.
Qed.

Lemma getValue_loop_app R valuePath value segments1 segments2 node :
  walk value segments1 node →
  getValue_loop R valuePath (OfData value) (segments1 ++ segments2)
    = getValue_loop R valuePath (OfData node) segments2.
Proof.
  induction 1 as [|children segment child segments node Hlook Hwalk IH];
    [done|].
  simpl. by rewrite Hlook.
Qed.

(** Every walk ends in one of the four ways. *)
Lemma walk_outcome value segments :
  (∃ node, walk value segments node) ∨
  ∃ before segment after,
    segments = before ++ segment :: after ∧
    ((∃ leaf, walk value before (DataLeafNode leaf)) ∨
     (∃ children, walk value before (DataRecord children) ∧
                  children !! segment = None)).
Proof.
  revert value. induction segments as [|segment segments IH]; intros value.
  - left. exists value. constructor.
  - destruct value as [leaf|children].
    + right. exists [], segment, segments. split; [done|]. left.
      exists leaf. constructor.
    + destruct (children !! segment) as [child|] eqn:Hlook.
      * destruct (IH child) as [[node Hw]|(before & seg & after & -> & H)].
        -- left. exists node. by econstructor.
        -- right. exists (segment :: before), seg, after. split; [done|].
           destruct H as [[leaf Hw]|(children' & Hw & Hnone)].
           ++ left. exists leaf. by econstructor.
           ++ right. exists children'. split; [by econstructor|done].
      * right. exists [], segment, segments. split; [done|]. right.
        exists children. split; [constructor|done].
Qed.

(** C3.  A segment that is no key of the record reached is not always
    rejected: [value[segment]] also reads the properties the record
    inherits.  In an object literal that has no key [constructor], such as
    [{"color": {"red": "#ff0000"}}], the path [constructor] finds the
    function [Object] and fails with the message that no leaf was reached,
    not with the one about a non-existent key, and the path
    [constructor.name] returns the string [Object], so that the directive
    [<!constructor.name!>] is replaced by [Object].  The four examples of
    the claim come out as it says. *)
Theorem getValue_reads_inherited_properties (tree : gmap str DataNode) :
  tree !! u16 "constructor" = None →
  getValue (literal tree) (u16 "constructor") (u16 ".")
    = inl (TypeError (no_leaf_reached (u16 "constructor"))) ∧
  getValue (literal tree) (u16 "constructor.name") (u16 ".")
    = inr (u16 "Object") ∧
  written (pipeline (new_SwapTransform colors bang_template)
             [u16 "<!constructor.name!>"]) = u16 "Object" ∧
  getValue colors (u16 "color.red") (u16 ".") = inr (u16 "#ff0000") ∧
  getValue colors (u16 "color") (u16 ".")
    = inl (TypeError (no_leaf_reached (u16 "color"))) ∧
  getValue colors (u16 "color.blue") (u16 ".")
    = inl (TypeError (non_existent_key (u16 "blue") (u16 "color.blue"))) ∧
  getValue colors (u16 "color.red.dark") (u16 ".")
    = inl (TypeError (index_into_leaf (u16 "color.red.dark"))).
Proof.
  intros Hown. split_and!; try by vm_compute.
  - unfold getValue.
    change (split (u16 "constructor") (u16 ".")) with [u16 "constructor"].
    simpl. by rewrite Hown.
  - unfold getValue.
    change (split (u16 "constructor.name") (u16 "."))
      with [u16 "constructor"; u16 "name"].
    simpl. by rewrite Hown.
Qed.

Lemma getValue_reads_inherited_properties_witness :
  getValue colors (u16 "constructor") (u16 ".")
    = inl (TypeError (no_leaf_reached (u16 "constructor"))) ∧
  getValue colors (u16 "constructor.name") (u16 ".") = inr (u16 "Object").
Proof.
  split.
  - refine (proj1 (getValue_reads_inherited_properties (own colors) _)).
    by vm_compute.
  - refine (proj1 (proj2 (getValue_reads_inherited_properties (own colors) _))).
    by vm_compute.
Defined.

(** X17.  Along the own keys of the data [getValue] is the walk of the
    tree: it splits the path at the separator (the segments, joined with
    it, are the path); a walk that ends on a leaf returns its string; one
    that ends on a record fails with the message that no leaf was reached;
    a segment that would leave a leaf fails with the message about indexing
    into a leaf; a segment that is no key of the record reached, and that
    the record does not inherit either, fails with the message that names
    the segment.  Each message quotes the whole path, and every path is
    walked to its end or stops in a leaf or in a record without the key. *)
Theorem getValue_outcomes (data : SwapData) valuePath separator :
  let segments := split valuePath separator in
  let root := DataRecord (own data) in
  (separator ≠ [] → join separator segments = valuePath) ∧
  (∀ value, walk root segments (DataLeafNode value) →
     getValue data valuePath separator = inr value) ∧
  (∀ children, walk root segments (DataRecord children) →
     getValue data valuePath separator
       = inl (TypeError (no_leaf_reached valuePath))) ∧
  (∀ before segment after leaf,
     segments = before ++ segment :: after →
     walk root before (DataLeafNode leaf) →
     getValue data valuePath separator
       = inl (TypeError (index_into_leaf valuePath))) ∧
  (∀ before segment after children,
     segments = before ++ segment :: after →
     walk root before (DataRecord children) →
     children !! segment = None →
     inherited (realm data) segment = Nullish →
     getValue data valuePath separator
       = inl (TypeError (non_existent_key segment valuePath))) ∧
  ((∃ node, walk root segments node) ∨
   ∃ before segment after,
     segments = before ++ segment :: after ∧
     ((∃ leaf, walk root before (DataLeafNode leaf)) ∨
      (∃ children, walk root before (DataRecord children) ∧
                   children !! segment = None))).
Proof.
  intros segments root. unfold getValue. fold segments. fold root.
  split_and!.
  - apply split_join.
  - intros value Hw.
    by rewrite (getValue_loop_walk (realm data) valuePath _ _ _ Hw).
  - intros children Hw.
    by rewrite (getValue_loop_walk (realm data) valuePath _ _ _ Hw).
  - intros before segment after leaf -> Hw.
    by rewrite (getValue_loop_app _ _ _ _ _ _ Hw).
  - intros before segment after children -> Hw Hnone Hinherited.
    rewrite (getValue_loop_app _ _ _ _ _ _ Hw). simpl.
    by rewrite Hnone, Hinherited.
  - apply walk_outcome.
Qed.

Lemma getValue_outcomes_witness :
  getValue colors (u16 "color.red") (u16 ".") = inr (u16 "#ff0000") ∧
  getValue colors (u16 "color.blue") (u16 ".")
    = inl (TypeError (non_existent_key (u16 "blue") (u16 "color.blue"))).
Proof.
  split.
  - refine (proj1 (proj2 (getValue_outcomes colors (u16 "color.red") (u16 "."))) _ _).
    change (split (u16 "color.red") (u16 ".")) with [u16 "color"; u16 "red"].
    eapply walk_descend; [by vm_compute|].
    eapply walk_descend; [by vm_compute|]. constructor.
  - refine (proj1 (proj2 (proj2 (proj2 (proj2
      (getValue_outcomes colors (u16 "color.blue") (u16 "."))))))
      [u16 "color"] (u16 "blue") [] _ _ _ _ _).
    + by vm_compute.
    + eapply walk_descend; [by vm_compute|]. constructor.
    + by vm_compute.
    + by vm_compute.
Defined.

(** * The template *)



(** * Text that is not a directive *)

(** C2, where the code departs from it.  The text [a<] contains no
    directive of the template [<! . !>], not even its start token; the
    stream ends without an error, and what is written is [a]: the [<]
    that might have begun a start token is still in the buffer when the
    input ends.  This is so for the text as one chunk and for its code
    units one by one. *)
Theorem trailing_text_is_lost :
  occurs (start bang_template) (u16 "a<") = false ∧
  (∃ t, pipeline (new_SwapTransform colors bang_template) [u16 "a<"]
        = ([u16 "a"], inr t) ∧
        stateBuffer (context t) = u16 "<") ∧
  (∃ t, pipeline (new_SwapTransform colors bang_template) (chars (u16 "a<"))
        = ([u16 "a"; []], inr t) ∧
        stateBuffer (context t) = u16 "<").
Proof.
  split_and!; [by vm_compute|eexists; split; vm_compute; reflexivity..].
Qed.

(** C4, where the code departs from it.  With the template [<! . !>] the
    text [<<!color.red!>] contains the directive [<!color.red!>], which the
    same data resolves in [-<!color.red!>]; after the [<] that begins a
    start token, the second [<] breaks the match and is written out with
    it, so that it cannot begin the start token of the directive: the text is
    written as it is. *)
Theorem directive_after_false_start_is_missed :
  occurs (u16 "<!color.red!>") (u16 "<<!color.red!>") = true ∧
  written (pipeline (new_SwapTransform colors bang_template) [u16 "-<!color.red!>"])
    = u16 "-#ff0000" ∧
  (∃ t, pipeline (new_SwapTransform colors bang_template) [u16 "<<!color.red!>"]
        = ([u16 "<<!color.red!>"], inr t)) ∧
  written (pipeline (new_SwapTransform colors bang_template)
             (chars (u16 "<<!color.red!>")))
    = u16 "<<!color.red!>".
Proof.
  split_and!; [by vm_compute..|eexists; vm_compute; reflexivity|by vm_compute].
Qed.

(** * Further properties of the scanner *)

Lemma scan_plain T D text :
  never_starts T text = true →
  scan T D lookingForDirectiveState [] text
    = inr (lookingForDirectiveState, [], text).
Proof.
  unfold never_starts. destruct (start T) as [|c0 s] eqn:Hstart; [done|].
  induction text as [|c text IH]; [done|]. simpl.
  intros [Hc Htext]%andb_prop. rewrite Hstart.
  rewrite bool_decide_eq_true_2 by (simpl; lia).
  rewrite bool_decide_eq_false_2.
  2:{ intros [= ->]. by rewrite N.eqb_refl in Hc. }
  by rewrite IH.
Qed.

Lemma never_starts_start T text : never_starts T text = true → start T ≠ [].
Proof. unfold never_starts. by destruct (start T). Qed.

Lemma scan_piece T D p :
  start T ≠ [] → end_ T ≠ [] → piece_ok T p = true →
  scan T D lookingForDirectiveState [] (piece_source T p) =
    match p with
    | Plain text => inr (lookingForDirectiveState, [], text)
    | Directive _ raw =>
        match getValue D (trim raw) (separator T) with
        | inl e => inl e
        | inr value => inr (lookingForDirectiveState, [], value)
        end
    end.
Proof.
  intros Hstart Hend. destruct p as [text|ws raw]; simpl.
  - apply scan_plain.
  - intros [[[Hws Hhead%negb_true_iff]%andb_prop Hfind%bool_decide_eq_true_1]%andb_prop
            Hlen%bool_decide_eq_true_1]%andb_prop.
    rewrite scan_open_directive; [|done|done| |done].
    2:{ destruct raw; [|done]. by destruct (end_ T). }
    rewrite scan_inDirective by (simpl; lia).
    rewrite Hfind. rewrite bool_decide_eq_true_2 by (simpl; lia).
    rewrite firstn_all, drop_all. unfold resolved. simpl.
    rewrite slice_0_neg_app by done.
    destruct (getValue D (trim raw) (separator T)); [done|].
    simpl. by rewrite app_nil_r.
Qed.

Lemma scan_document T D pieces :
  start T ≠ [] → end_ T ≠ [] → forallb (piece_ok T) pieces = true →
  scan T D lookingForDirectiveState [] (document_source T pieces) =
    match document_output T D pieces with
    | inl e => inl e
    | inr out => inr (lookingForDirectiveState, [], out)
    end.
Proof.
  intros Hstart Hend. unfold document_source.
  induction pieces as [|p pieces IH]; [done|].
  intros [Hp Hps]%andb_prop.
  change (concat (piece_source T <$> p :: pieces))
    with (piece_source T p ++ concat (piece_source T <$> pieces)).
  rewrite scan_app, scan_piece by done. cbn [document_output].
  destruct p as [text|ws raw];
    [|destruct (getValue D (trim raw) (separator T)) as [e|value]; [done|]];
    unfold resume; rewrite IH by done;
    by destruct (document_output T D pieces).
Qed.

(** X1.  A text made of plain stretches that hold no code unit equal to the
    first of the start token, and of well-formed directives, comes out, in
    whatever chunks it arrives, with every directive replaced by the value
    of its trimmed path and everything else as it is; the scanner is then
    between directives again.  When a path is rejected, the stream fails
    with the error of the first such path. *)
Theorem document_substitution T D pieces chunks :
  start T ≠ [] → end_ T ≠ [] →
  forallb (piece_ok T) pieces = true →
  concat chunks = document_source T pieces →
  match document_output T D pieces with
  | inl e => ∃ emitted, pipeline (new_SwapTransform D T) chunks = (emitted, inl e)
  | inr out =>
      ∃ emitted t',
        pipeline (new_SwapTransform D T) chunks = (emitted, inr t') ∧
        concat emitted = out ∧ scanning t'
  end.
Proof.
  intros Hstart Hend Hok Hconcat.
  pose proof (pipeline_scan (new_SwapTransform D T) chunks eq_refl) as H.
  simpl in H. rewrite Hconcat, scan_document in H by done.
  destruct (document_output T D pieces) as [e|out]; [done|].
  destruct H as (emitted & t' & Hrun & Hout & Hs & Hb & Ho & _).
  by exists emitted, t'.
Qed.

Lemma document_substitution_witness :
  ∃ emitted t',
    pipeline (new_SwapTransform two_colors bang_template)
      (chars (document_source bang_template css_pieces)) = (emitted, inr t') ∧
    concat emitted
      = u16 "color: #ff0000;" ++ [10%N] ++ u16 "background-color: #0000ff;" ∧
    scanning t'.
Proof.
  refine (document_substitution bang_template two_colors css_pieces
    (chars (document_source bang_template css_pieces)) _ _ _ _);
    by vm_compute.
Defined.

Lemma feed_buffer_ok T D f buf c f' buf' out :
  start T ≠ [] →
  buffer_ok T f buf → feed T D f buf c = inr (f', buf', out) →
  buffer_ok T f' buf'.
Proof.
  intros Hstart.
  assert (buffer_ok T lookingForDirectiveState []) as Hfresh.
  { split; [apply prefix_nil|]. destruct (start T); [done|simpl; lia]. }
  assert (∀ b, b ≠ [] → inDirective_check T D b = inr (f', buf', out) →
    buffer_ok T f' buf') as Hcheck.
  { intros b Hb. unfold inDirective_check.
    destruct (endsWith b (end_ T)) eqn:Hend.
    - destruct (getValue _ _ _); [done|]. by intros [= <- <- <-].
    - case_bool_decide as Hlen; [done|]. intros [= <- <- <-]. simpl.
      split_and!; [done|lia|done]. }
  destruct f as [| |[| |g]]; simpl; try done.
  - intros [Hpre Hlen]. rewrite bool_decide_eq_true_2 by done.
    case_bool_decide as Hc.
    + case_bool_decide as Hfull; intros [= <- <- <-]; [|done].
      split; [|rewrite length_app; simpl; lia].
      destruct Hpre as [q Hq]. rewrite Hq in Hc |- *.
      rewrite lookup_app_r, Nat.sub_diag in Hc by lia.
      destruct q as [|c' q]; [done|]. injection Hc as ->.
      exists q. by rewrite <- app_assoc.
    + by intros [= <- <- <-].
  - intros _. apply Hcheck. by destruct buf.
  - intros ->. destruct (is_space c); [by intros [= <- <- <-]|].
    by apply Hcheck.
Qed.

Lemma scan_buffer_ok T D f buf text f' buf' out :
  start T ≠ [] →
  buffer_ok T f buf → scan T D f buf text = inr (f', buf', out) →
  buffer_ok T f' buf'.
Proof.
  intros Hstart. revert f buf out.
  induction text as [|c text IH]; intros f buf out Hok; simpl.
  - by intros [= <- <- <-].
  - destruct (feed T D f buf c) as [e|[[f1 buf1] out1]] eqn:Hfeed; [done|].
    destruct (scan T D f1 buf1 text) as [e|[[f2 buf2] out2]] eqn:Hscan; [done|].
    intros [= <- <- <-]. eapply IH; [|done].
    by eapply feed_buffer_ok.
Qed.

(** X6.  Whatever text a new transform has processed without an error, its
    buffer is small: while it looks for the start token the buffer is a
    proper beginning of the start token, while it skips whitespace the
    buffer is empty, and inside a directive the buffer has at most 1024
    code units and does not end with the end token. *)
Theorem buffer_is_bounded T D chunks emitted t' :
  start T ≠ [] →
  pipeline (new_SwapTransform D T) chunks = (emitted, inr t') →
  buffer_ok T (nextState t') (stateBuffer (context t')) ∧
  length (stateBuffer (context t')) ≤ max (length (start T) - 1) 1024.
Proof.
  intros Hstart Hrun.
  pose proof (pipeline_scan (new_SwapTransform D T) chunks eq_refl) as H.
  simpl in H.
  destruct (scan _ _ _ _ _) as [e|[[f buf] out]] eqn:Hscan.
  { destruct H as [? H]. congruence. }
  destruct H as (emitted' & t'' & H & _ & Hs & Hb & _).
  rewrite Hrun in H. injection H as _ <-. rewrite Hs, Hb.
  assert (buffer_ok T f buf) as Hok.
  { eapply scan_buffer_ok; [done| |done].
    split; [apply prefix_nil|]. destruct (start T); [done|simpl; lia]. }
  split; [done|].
  destruct f as [| |[| |g]]; simpl in Hok.
  - lia.
  - lia.
  - done.
  - rewrite Hok. apply Nat.le_0_l.
  - done.
Qed.

Lemma buffer_is_bounded_witness :
  ∃ emitted t',
    pipeline (new_SwapTransform colors bang_template) [u16 "ab <"; u16 "! color"]
      = (emitted, inr t') ∧
    buffer_ok bang_template (nextState t') (stateBuffer (context t')) ∧
    length (stateBuffer (context t'))
      ≤ max (length (start bang_template) - 1) 1024.
Proof.
  eexists _, _. split; [vm_compute; reflexivity|].
  refine (buffer_is_bounded bang_template colors [u16 "ab <"; u16 "! color"]
    _ _ _ _); [by vm_compute|vm_compute; reflexivity].
Defined.

(** X3.  Chunks that hold no code unit equal to the first of the start token
    are emitted one for one as they are: nothing is held back, and the
    scanner stays between directives. *)
Theorem plain_chunks_pass_through t chunks :
  scanning t →
  forallb (never_starts (template (context t))) chunks = true →
  ∃ t', pipeline t chunks = (chunks, inr t') ∧ scanning t'.
Proof.
  revert t. induction chunks as [|chunk chunks IH]; intros t Hs Hplain.
  - by exists t.
  - simpl in Hplain. apply andb_prop in Hplain as [Hchunk Hchunks].
    destruct Hs as (Hstate & Hbuf & Hout).
    pose proof (_transform_scan t chunk) as Ht. cbv zeta in Ht.
    rewrite Hstate, Hbuf, scan_plain in Ht by done.
    destruct Ht as [idx Ht]. simpl. rewrite Ht, Hout. simpl.
    set (t1 := mkTransform _ _).
    destruct (IH t1) as (t' & -> & Hs'); [done|done|]. by exists t'.
Qed.

Lemma plain_chunks_pass_through_witness :
  ∃ t',
    pipeline (new_SwapTransform colors bang_template)
      [u16 "p { color: red; }"; []; u16 "!>!"]
      = ([u16 "p { color: red; }"; []; u16 "!>!"], inr t') ∧
    scanning t'.
Proof.
  refine (plain_chunks_pass_through (new_SwapTransform colors bang_template)
    [u16 "p { color: red; }"; []; u16 "!>!"] _ _); by vm_compute.
Defined.

Lemma _transform_ext t1 t2 chunk :
  nextState t1 = nextState t2 →
  output (context t1) = output (context t2) →
  swapData (context t1) = swapData (context t2) →
  template (context t1) = template (context t2) →
  stateBuffer (context t1) = stateBuffer (context t2) →
  _transform t1 chunk = _transform t2 chunk.
Proof.
  destruct t1 as [f1 [i1 o1 d1 T1 b1 n1]], t2 as [f2 [i2 o2 d2 T2 b2 n2]].
  simpl. by intros -> -> -> -> ->.
Qed.

Lemma pipeline_app t chunks1 chunks2 :
  pipeline t (chunks1 ++ chunks2) =
    match pipeline t chunks1 with
    | (emitted1, inl e) => (emitted1, inl e)
    | (emitted1, inr t1) =>
        let '(emitted2, r) := pipeline t1 chunks2 in (emitted1 ++ emitted2, r)
    end.
Proof.
  revert t. induction chunks1 as [|chunk chunks1 IH]; intros t; simpl.
  - by destruct (pipeline t chunks2).
  - destruct (_transform t chunk) as [data t1|e ctx]; [|done].
    rewrite IH. destruct (pipeline t1 chunks1) as [emitted1 [e|t2]]; [done|].
    by destruct (pipeline t2 chunks2).
Qed.

(** X5.  Once the chunks so far leave the scanner between directives, what
    follows is processed as by a new transform on the same template and
    data: the output of the whole is the output so far followed by the
    output of a new transform on the rest, with the same end. *)
Theorem scanning_restarts t chunks1 chunks2 emitted1 t1 :
  output (context t) = [] →
  pipeline t chunks1 = (emitted1, inr t1) →
  scanning t1 →
  chunks2 ≠ [] →
  let fresh :=
    pipeline (new_SwapTransform (swapData (context t)) (template (context t)))
      chunks2 in
  pipeline t (chunks1 ++ chunks2) = (emitted1 ++ fresh.1, fresh.2).
Proof.
  intros Hout Hrun (Hstate & Hbuf & Hout1) Hne fresh.
  rewrite pipeline_app, Hrun.
  pose proof (pipeline_scan t chunks1 Hout) as H. cbv zeta in H.
  destruct (scan _ _ _ _ _) as [e|[[f buf] out]].
  { destruct H as [? H]. congruence. }
  destruct H as (emitted' & t'' & H & _ & _ & _ & _ & HT & HD).
  rewrite Hrun in H. injection H as _ <-.
  assert (pipeline t1 chunks2 = fresh) as ->; [|by destruct fresh].
  unfold fresh. destruct chunks2 as [|chunk chunks2]; [done|]. simpl.
  by rewrite (_transform_ext t1
    (new_SwapTransform (swapData (context t)) (template (context t))) chunk).
Qed.

Lemma scanning_restarts_witness :
  ∃ emitted1 t1,
    pipeline (new_SwapTransform colors bang_template) [u16 "a <!color.red!>"]
      = (emitted1, inr t1) ∧
    pipeline (new_SwapTransform colors bang_template)
      ([u16 "a <!color.red!>"] ++ [u16 "b <!"; u16 "color.red!>"])
    = (emitted1
       ++ (pipeline (new_SwapTransform colors bang_template)
             [u16 "b <!"; u16 "color.red!>"]).1,
       (pipeline (new_SwapTransform colors bang_template)
          [u16 "b <!"; u16 "color.red!>"]).2).
Proof.
  eexists _, _. split; [vm_compute; reflexivity|].
  refine (scanning_restarts (new_SwapTransform colors bang_template)
    [u16 "a <!color.red!>"] [u16 "b <!"; u16 "color.red!>"] _ _ _ _ _ _);
    by vm_compute.
Defined.

Lemma call_configuration f ctx :
  match call f ctx with
  | Return ctx' _ | Throw ctx' _ => same_configuration ctx ctx'
  end.
Proof.
  assert (∀ rest ctx,
    match lookingForDirective_loop rest ctx with
    | Return ctx' _ | Throw ctx' _ => same_configuration ctx ctx'
    end) as Hlooking.
  { induction rest as [|c rest IH]; intros ctx0; simpl.
    - by case_bool_decide.
    - case_bool_decide; [|done].
      case_bool_decide;
        match goal with |- context [lookingForDirective_loop rest ?c] =>
          specialize (IH c); by destruct (lookingForDirective_loop rest c)
        end. }
  assert (∀ rest ctx,
    match inDirective_loop rest ctx with
    | Return ctx' _ | Throw ctx' _ => same_configuration ctx ctx'
    end) as HinDirective.
  { induction rest as [|c rest IH]; intros ctx0;
      rewrite inDirective_loop_unfold;
      (destruct (endsWith _ _);
       [unfold inDirective_resolve; by destruct (getValue _ _ _)|]);
      (case_bool_decide; [done|]); [done|].
    match goal with |- context [inDirective_loop rest ?c] =>
      specialize (IH c); by destruct (inDirective_loop rest c)
    end. }
  assert (∀ rest ctx,
    same_configuration ctx (whitespace_loop rest ctx).1) as Hwhitespace.
  { induction rest as [|c rest IH]; intros ctx0; simpl; [done|].
    destruct (is_space c); [|done]. apply (IH (advance ctx0)). }
  destruct f as [| |g]; simpl.
  - apply Hlooking.
  - unfold inDirectiveState_body. destruct (unread ctx) as [|c rest]; [done|].
    match goal with |- context [inDirective_loop rest ?c] =>
      specialize (HinDirective rest c); by destruct (inDirective_loop rest c)
    end.
  - unfold whitespaceConsumerState_body.
    specialize (Hwhitespace (unread ctx) ctx).
    by destruct (whitespace_loop _ _) as [ctx' [c|]].
Qed.

Lemma transform_loop_configuration t :
  match transform_loop t with
  | Return ctx' _ | Throw ctx' _ => same_configuration (context t) ctx'
  end.
Proof.
  remember (loop_measure (nextState t) (context t)) as n eqn:Hn.
  revert t Hn. induction (lt_wf n) as [n _ IH]. intros [f ctx] ->.
  rewrite transform_loop_eq. simpl. case_bool_decide as Hlt; [|done].
  pose proof (call_configuration f ctx) as Hcall.
  destruct (call f ctx) as [ctx1 f1|ctx1 e] eqn:Hc; [|done].
  pose proof (call_progress _ _ _ _ Hlt Hc) as [_ Hm].
  destruct Hcall as [HT HD].
  destruct (decide (f1 = f)) as [->|].
  - specialize (IH _ Hm (mkTransform f ctx1) eq_refl). simpl in IH.
    destruct (transform_loop _) as [ctx2 ?|ctx2 ?]; destruct IH; split; congruence.
  - specialize (IH _ Hm (mkTransform f1 (set_stateBuffer [] ctx1)) eq_refl).
    unfold same_configuration, set_stateBuffer in *. simpl in IH.
    destruct (transform_loop _) as [ctx2 ?|ctx2 ?]; destruct IH; split; congruence.
Qed.

(** X7.  [_transform] never changes the template or the swap data of the
    context, whether it pushes output or fails. *)
Theorem configuration_is_read_only t chunk :
  match _transform t chunk with
  | Pushed _ t' =>
      template (context t') = template (context t) ∧
      swapData (context t') = swapData (context t)
  | Failed _ ctx' =>
      template ctx' = template (context t) ∧
      swapData ctx' = swapData (context t)
  end.
Proof.
  unfold _transform.
  pose proof (transform_loop_configuration
    (mkTransform (nextState t) (set_nextIndex 0 (set_input chunk (context t)))))
    as H.
  by destruct (transform_loop _).
Qed.

Lemma trimStart_length s : length (trimStart s) ≤ length s.
Proof.
  induction s as [|c s IH]; [done|]. simpl.
  destruct (is_space c); simpl; lia.
Qed.

Lemma whitespace_loop_spec rest ctx :
  whitespace_loop rest ctx
    = (set_nextIndex (nextIndex ctx + leading_spaces rest) ctx,
       head (trimStart rest)).
Proof.
  unfold leading_spaces. revert ctx.
  induction rest as [|c rest IH]; intros ctx; simpl.
  - f_equal. destruct ctx; unfold set_nextIndex; simpl. f_equal. lia.
  - destruct (is_space c) eqn:Hc.
    + rewrite IH. f_equal. pose proof (trimStart_length rest).
      destruct ctx; unfold advance, set_nextIndex; simpl. f_equal. lia.
    + simpl. f_equal. destruct ctx; unfold set_nextIndex; simpl. f_equal. lia.
Qed.

(** X9.  A whitespace consumer never throws and changes nothing but the
    cursor: it moves [nextIndex] past the whitespace the unread input
    begins with, leaves output and buffer alone, does not consume the code
    unit that follows, and returns itself exactly when the unread input was
    all whitespace. *)
Theorem whitespace_consumer_moves_the_cursor_only g ctx :
  let k := leading_spaces (unread ctx) in
  call (whitespaceConsumerState g) ctx
    = Return (set_nextIndex (nextIndex ctx + k) ctx)
        (if bool_decide (k = length (unread ctx))
         then whitespaceConsumerState g else g).
Proof.
  simpl. unfold whitespaceConsumerState_body. rewrite whitespace_loop_spec.
  unfold leading_spaces. pose proof (trimStart_length (unread ctx)) as Hlen.
  destruct (trimStart (unread ctx)) as [|c rest] eqn:Htrim; simpl.
  - by rewrite bool_decide_eq_true_2 by (simpl; lia).
  - rewrite bool_decide_eq_false_2; [done|]. simpl in *. lia.
Qed.

Lemma lookingForDirective_loop_returns rest ctx :
  ∃ ctx' f, lookingForDirective_loop rest ctx = Return ctx' f.
Proof.
  revert ctx. induction rest as [|c rest IH]; intros ctx; simpl.
  - case_bool_decide; by eexists _, _.
  - case_bool_decide; [|by eexists _, _]. case_bool_decide; apply IH.
Qed.

Lemma inDirective_loop_throws rest ctx ctx' e :
  inDirective_loop rest ctx = Throw ctx' e →
  e = Error directive_too_long ∨ ∃ message, e = TypeError message.
Proof.
  revert ctx. induction rest as [|c rest IH]; intros ctx;
    rewrite inDirective_loop_unfold;
    (destruct (endsWith _ _);
     [unfold inDirective_resolve;
      destruct (getValue _ _ _) as [e'|] eqn:Hg; [|done];
      intros [= <- <-]; right; by eapply getValue_TypeError|]);
    (case_bool_decide; [intros [= <- <-]; by left|]); [done|].
  apply IH.
Qed.

(** X8.  The transitions of the state machine: [lookingForDirectiveState]
    returns itself or a whitespace consumer for [inDirectiveState];
    [inDirectiveState] returns itself or [lookingForDirectiveState]; a
    whitespace consumer returns itself or the state it was built around.
    Only [inDirectiveState] throws, and what it throws is the error of a
    directive that is too long or a [TypeError] of the resolver. *)
Theorem state_transitions f ctx :
  match call f ctx with
  | Return _ f' =>
      match f with
      | lookingForDirectiveState =>
          f' = lookingForDirectiveState ∨
          f' = whitespaceConsumerState inDirectiveState
      | inDirectiveState =>
          f' = inDirectiveState ∨ f' = lookingForDirectiveState
      | whitespaceConsumerState g => f' = whitespaceConsumerState g ∨ f' = g
      end
  | Throw _ e =>
      f = inDirectiveState ∧
      (e = Error directive_too_long ∨ ∃ message, e = TypeError message)
  end.
Proof.
  destruct (call f ctx) as [ctx' f'|ctx' e] eqn:Hcall;
    destruct f as [| |g]; simpl in Hcall.
  - apply lookingForDirective_loop_progress in Hcall as [_ [[-> _]|[-> _]]];
      [by left|by right].
  - unfold inDirectiveState_body in Hcall.
    destruct (unread ctx); [injection Hcall as _ <-; by left|].
    apply inDirective_loop_progress in Hcall as [_ [[-> _]|[-> _]]];
      [by left|by right].
  - unfold whitespaceConsumerState_body in Hcall.
    destruct (whitespace_loop _ _) as [? [c|]]; injection Hcall as _ <-;
      [by right|by left].
  - unfold lookingForDirectiveState_body in Hcall.
    destruct (lookingForDirective_loop_returns (unread ctx) ctx) as (? & ? & H).
    congruence.
  - split; [done|]. unfold inDirectiveState_body in Hcall.
    destruct (unread ctx); [done|]. by eapply inDirective_loop_throws.
  - unfold whitespaceConsumerState_body in Hcall.
    by destruct (whitespace_loop _ _) as [? [c|]].
Qed.

Lemma lookingForDirective_loop_conserves rest ctx ctx' f :
  lookingForDirective_loop rest ctx = Return ctx' f →
  nextIndex ctx ≤ nextIndex ctx' ∧
  output ctx' ++ stateBuffer ctx'
    = output ctx ++ stateBuffer ctx
      ++ take (nextIndex ctx' - nextIndex ctx) rest.
Proof.
  revert ctx. induction rest as [|c rest IH]; intros ctx; simpl.
  - case_bool_decide; intros [= <- <-]; simpl;
      (split; [lia|]); by rewrite take_nil, app_nil_r.
  - case_bool_decide.
    2:{ intros [= <- <-]. split; [lia|].
        by rewrite Nat.sub_diag, take_0, app_nil_r. }
    case_bool_decide; intros Hr; apply IH in Hr as [Hidx Hr];
      simpl in Hidx, Hr; (split; [lia|]); rewrite Hr;
      replace (nextIndex ctx' - nextIndex ctx)
        with (S (nextIndex ctx' - S (nextIndex ctx))) by lia;
      simpl; by rewrite <- ?app_assoc.
Qed.

(** X10.  A call of [lookingForDirectiveState] never throws, and whatever the
    context it loses nothing: output followed by buffer after the call is
    output followed by buffer before it, followed by the code units the
    call consumed. *)
Theorem looking_call_loses_nothing ctx :
  ∃ ctx' f,
    call lookingForDirectiveState ctx = Return ctx' f ∧
    output ctx' ++ stateBuffer ctx'
      = output ctx ++ stateBuffer ctx
        ++ take (nextIndex ctx' - nextIndex ctx) (unread ctx).
Proof.
  simpl. unfold lookingForDirectiveState_body.
  destruct (lookingForDirective_loop_returns (unread ctx) ctx)
    as (ctx' & f & Hcall).
  exists ctx', f. split; [done|].
  by apply lookingForDirective_loop_conserves in Hcall as [_ ?].
Qed.

Lemma inDirective_loop_buffers rest ctx ctx' f :
  inDirective_loop rest ctx = Return ctx' f →
  nextIndex ctx ≤ nextIndex ctx' ∧
  stateBuffer ctx'
    = stateBuffer ctx ++ take (nextIndex ctx' - nextIndex ctx) rest ∧
  ((f = inDirectiveState ∧ output ctx' = output ctx) ∨
   (f = lookingForDirectiveState ∧
    endsWith (stateBuffer ctx') (end_ (template ctx)) = true ∧
    ∃ value,
      getValue (swapData ctx)
        (trim (slice_0_neg (stateBuffer ctx') (length (end_ (template ctx)))))
        (separator (template ctx)) = inr value ∧
      output ctx' = output ctx ++ value)).
Proof.
  revert ctx. induction rest as [|c rest IH]; intros ctx;
    rewrite inDirective_loop_unfold;
    (destruct (endsWith _ _) eqn:Hend;
     [unfold inDirective_resolve;
      destruct (getValue _ _ _) as [|value] eqn:Hg; [done|];
      intros [= <- <-]; simpl; rewrite Nat.sub_diag, take_0, app_nil_r;
      split_and!; [lia|done|]; right; split_and!; [done..|by exists value]|]);
    (case_bool_decide; [done|]).
  - intros [= <- <-]. simpl. rewrite take_nil, app_nil_r.
    split_and!; [lia|done|by left].
  - intros Hr. apply IH in Hr as (Hidx & Hbuf & Hr). simpl in Hidx, Hbuf, Hr.
    split_and!; [lia| |done].
    rewrite Hbuf.
    replace (nextIndex ctx' - nextIndex ctx)
      with (S (nextIndex ctx' - S (nextIndex ctx))) by lia.
    simpl. by rewrite <- app_assoc.
Qed.

(** X11.  A call of [inDirectiveState] that returns has appended to the buffer
    exactly the code units it consumed.  When it returns itself the output
    is unchanged; when it returns [lookingForDirectiveState] the buffer
    ends with the end token and the output has grown by the value that
    [getValue] gives for the buffer without the end token, trimmed. *)
Theorem inDirective_call_buffers_what_it_reads ctx ctx' f :
  call inDirectiveState ctx = Return ctx' f →
  stateBuffer ctx'
    = stateBuffer ctx ++ take (nextIndex ctx' - nextIndex ctx) (unread ctx) ∧
  ((f = inDirectiveState ∧ output ctx' = output ctx) ∨
   (f = lookingForDirectiveState ∧
    endsWith (stateBuffer ctx') (end_ (template ctx)) = true ∧
    ∃ value,
      getValue (swapData ctx)
        (trim (slice_0_neg (stateBuffer ctx') (length (end_ (template ctx)))))
        (separator (template ctx)) = inr value ∧
      output ctx' = output ctx ++ value)).
Proof.
  simpl. unfold inDirectiveState_body.
  destruct (unread ctx) as [|c rest] eqn:Hu.
  - intros [= <- <-]. simpl. rewrite take_nil, app_nil_r. split; [done|by left].
  - intros Hr. apply inDirective_loop_buffers in Hr as (Hidx & Hbuf & Hr).
    simpl in Hidx, Hbuf, Hr. split; [|done]. rewrite Hbuf.
    replace (nextIndex ctx' - nextIndex ctx)
      with (S (nextIndex ctx' - S (nextIndex ctx))) by lia.
    simpl. by rewrite <- app_assoc.
Qed.

Lemma inDirective_call_buffers_what_it_reads_witness :
  ∃ ctx',
    call inDirectiveState
      (mkContext (u16 "lor.red !> and more") (u16 "Red: ") colors
         bang_template (u16 "co") 0)
      = Return ctx' lookingForDirectiveState ∧
    stateBuffer ctx' = u16 "color.red !>" ∧
    output ctx' = u16 "Red: #ff0000".
Proof.
  eexists. split; [vm_compute; reflexivity|].
  edestruct (inDirective_call_buffers_what_it_reads
    (mkContext (u16 "lor.red !> and more") (u16 "Red: ") colors
       bang_template (u16 "co") 0)) as [Hbuf _]; [vm_compute; reflexivity|].
  split; [exact Hbuf|reflexivity].
Defined.

(** * Further properties of the resolver *)

Lemma split_from_no_occurrence sep s acc :
  occurs sep s = false → split_from sep s acc 0 = [acc ++ s].
Proof.
  revert acc. induction s as [|c s IH]; intros acc; simpl.
  - by rewrite app_nil_r.
  - intros [Hhere Hlater]%orb_false_elim. rewrite Hhere, IH by done.
    by rewrite <- app_assoc.
Qed.

Lemma split_from_skip sep passed s acc :
  split_from sep (passed ++ s) acc (length passed) = split_from sep s acc 0.
Proof.
  induction passed as [|c passed IH]; [done|]. simpl. apply IH.
Qed.

Lemma split_from_first sep key rest acc :
  sep ≠ [] →
  occurs sep (key ++ take (length sep - 1) sep) = false →
  split_from sep (key ++ sep ++ rest) acc 0
    = (acc ++ key) :: split_from sep rest [] 0.
Proof.
  intros Hsep. revert acc. induction key as [|c key IH]; intros acc Hocc.
  - destruct sep as [|c sep]; [done|]. simpl.
    unfold startsWith. rewrite bool_decide_eq_true_2 by (by exists rest).
    rewrite app_nil_r, Nat.sub_0_r. f_equal. apply split_from_skip.
  - simpl in Hocc. apply orb_false_elim in Hocc as [Hhere Hlater]. simpl.
    assert (startsWith (c :: key ++ sep ++ rest) sep = false) as ->.
    { unfold startsWith in *. apply bool_decide_eq_false_2. intros Hpre.
      apply bool_decide_eq_false_1 in Hhere. apply Hhere.
      assert ((c :: key ++ take (length sep - 1) sep)
                `prefix_of` (c :: key ++ sep ++ rest)) as Hpre'.
      { apply prefix_cons, prefix_app.
        exists (drop (length sep - 1) sep ++ rest).
        by rewrite app_assoc, take_drop. }
      destruct (prefix_weak_total _ _ _ Hpre Hpre') as [?|Hshort]; [done|].
      apply prefix_length_eq in Hshort; [by rewrite Hshort|].
      simpl. rewrite length_app, length_take.
      destruct sep; [done|]. simpl. lia. }
    rewrite IH by done. by rewrite <- app_assoc.
Qed.

Lemma split_first sep key rest :
  sep ≠ [] →
  occurs sep (key ++ take (length sep - 1) sep) = false →
  split (key ++ sep ++ rest) sep = key :: split rest sep.
Proof.
  intros Hsep Hocc. unfold split. destruct sep as [|c sep]; [done|].
  by rewrite split_from_first.
Qed.

Lemma split_nonempty s sep : sep ≠ [] → split s sep ≠ [].
Proof.
  intros Hsep Hsplit. unfold split in Hsplit.
  destruct sep as [|c sep]; [done|].
  by destruct (split_from_join (c :: sep) s [] 0) as [? _]; [|simpl; lia|].
Qed.

(** A path that is resolved names no path in an error message: the values
    reached do not depend on it. *)
Lemma getValue_loop_path R valuePath1 valuePath2 value segments :
  (∃ found, getValue_loop R valuePath1 value segments = inr found) →
  getValue_loop R valuePath1 value segments
    = getValue_loop R valuePath2 value segments.
Proof.
  revert value. induction segments as [|segment segments IH]; intros value;
    [done|].
  simpl.
  assert (∀ newValue,
    getValue_body R valuePath1 value segment = inr newValue →
    getValue_body R valuePath2 value segment = inr newValue) as Hbody.
  { intros newValue. destruct value as [[leaf|children]|id]; simpl; [done|..].
    - destruct (children !! segment); [done|].
      by destruct (inherited R segment).
    - by destruct (property R id segment). }
  destruct (getValue_body R valuePath1 value segment) as [e|newValue];
    [by intros [? ?]|].
  rewrite (Hbody newValue eq_refl). apply IH.
Qed.

(** X12.  For a path in which the (non-empty) separator does not occur, the
    empty path included, [getValue] is one read of the path as a property
    of the root.  An own key gives the string of its leaf, or the no-leaf
    error for a record.  A path that is no own key is read from what the
    root inherits: nothing there is the unknown-key error, a string is
    returned, any other value is the no-leaf error, and a getter that
    throws ends the call with its error.  So a leaf stored under such a
    key is what the key resolves to. *)
Theorem getValue_of_a_key (data : SwapData) key sep :
  sep ≠ [] → occurs sep key = false →
  getValue data key sep =
    match own data !! key with
    | Some (DataLeafNode value) => inr value
    | Some (DataRecord _) => inl (TypeError (no_leaf_reached key))
    | None =>
        match inherited (realm data) key with
        | Nullish => inl (TypeError (non_existent_key key key))
        | StringValue value => inr value
        | ObjectValue _ => inl (TypeError (no_leaf_reached key))
        | GetterThrows message => inl (TypeError message)
        end
    end ∧
  ∀ value,
    getValue (mkData (<[key := DataLeafNode value]> (own data)) (realm data))
      key sep = inr value.
Proof.
  intros Hsep Hocc.
  assert (∀ data : SwapData, getValue data key sep =
    match own data !! key with
    | Some (DataLeafNode value) => inr value
    | Some (DataRecord _) => inl (TypeError (no_leaf_reached key))
    | None =>
        match inherited (realm data) key with
        | Nullish => inl (TypeError (non_existent_key key key))
        | StringValue value => inr value
        | ObjectValue _ => inl (TypeError (no_leaf_reached key))
        | GetterThrows message => inl (TypeError message)
        end
    end) as Hkey.
  { intros data'. unfold getValue, split.
    destruct sep as [|c sep]; [done|].
    rewrite split_from_no_occurrence by done. simpl.
    destruct (own data' !! key) as [[|]|]; [done..|].
    by destruct (inherited (realm data') key). }
  split; [apply Hkey|]. intros value. rewrite Hkey. simpl.
  by rewrite lookup_insert_eq.
Qed.

Lemma getValue_of_a_key_witness :
  getValue colors [] (u16 ".")
    = inl (TypeError (non_existent_key [] [])) ∧
  getValue colors (u16 "toString") (u16 ".")
    = inl (TypeError (no_leaf_reached (u16 "toString"))) ∧
  getValue
    (mkData (<[u16 "red" := DataLeafNode (u16 "#f00")]> (own colors))
       (realm colors))
    (u16 "red") (u16 ".") = inr (u16 "#f00").
Proof.
  split_and!.
  - refine (proj1 (getValue_of_a_key colors [] (u16 ".") _ _)); by vm_compute.
  - refine (proj1 (getValue_of_a_key colors (u16 "toString") (u16 ".") _ _));
      by vm_compute.
  - refine (proj2 (getValue_of_a_key colors (u16 "red") (u16 ".") _ _)
      (u16 "#f00")); by vm_compute.
Defined.

(** X13.  [getValue] resolves a path one segment at a time.  For a path that
    begins with a key, then the separator (first reached right after the
    key): a leaf under the key is the index-into-a-leaf error, and a record
    under the key makes the path resolve to exactly the values to which the
    rest of the path resolves in that record.  When the key is no own key
    of the root, what the root inherits under it decides: nothing is the
    unknown-key error naming the key, a string is the index-into-a-leaf
    error, a getter that throws gives its error, and in any other value the
    rest of the path is resolved by reads of that value. *)
Theorem getValue_descends (data : SwapData) key sep rest :
  sep ≠ [] →
  occurs sep (key ++ take (length sep - 1) sep) = false →
  let valuePath := key ++ sep ++ rest in
  match own data !! key with
  | Some (DataLeafNode _) =>
      getValue data valuePath sep = inl (TypeError (index_into_leaf valuePath))
  | Some (DataRecord children) =>
      ∀ value,
        getValue data valuePath sep = inr value ↔
        getValue (mkData children (realm data)) rest sep = inr value
  | None =>
      match inherited (realm data) key with
      | Nullish =>
          getValue data valuePath sep
            = inl (TypeError (non_existent_key key valuePath))
      | StringValue _ =>
          getValue data valuePath sep
            = inl (TypeError (index_into_leaf valuePath))
      | GetterThrows message =>
          getValue data valuePath sep = inl (TypeError message)
      | ObjectValue id =>
          getValue data valuePath sep
            = match getValue_loop (realm data) valuePath (OfRealm id)
                      (split rest sep) with
              | inl e => inl e
              | inr (OfData (DataLeafNode value)) => inr value
              | inr _ => inl (TypeError (no_leaf_reached valuePath))
              end
      end
  end.
Proof.
  intros Hsep Hocc valuePath. unfold getValue. subst valuePath.
  rewrite split_first by done.
  pose proof (split_nonempty rest sep Hsep) as Hrest.
  simpl. destruct (own data !! key) as [[leaf|children]|] eqn:Hkey.
  - by destruct (split rest sep).
  - intros value. split.
    + destruct (getValue_loop _ (key ++ sep ++ rest) _ _) as [|[[|]|]] eqn:Hloop;
        try done.
      intros [= ->].
      erewrite <- (getValue_loop_path _ (key ++ sep ++ rest)) by by eexists.
      by rewrite Hloop.
    + destruct (getValue_loop _ rest _ _) as [|[[|]|]] eqn:Hloop; try done.
      intros [= ->].
      erewrite <- (getValue_loop_path _ rest) by by eexists.
      by rewrite Hloop.
  - destruct (inherited (realm data) key); simpl; [done| |done..].
    by destruct (split rest sep).
Qed.

Lemma getValue_descends_witness :
  getValue config (u16 "config->graphics->framerate") (u16 "->")
    = inr (u16 "60").
Proof.
  refine (proj2 (getValue_descends config (u16 "config") (u16 "->")
    (u16 "graphics->framerate") _ _ (u16 "60")) _); by vm_compute.
Defined.

(** * Further properties of the template *)

Lemma trimStart_spaces ws s :
  forallb is_space ws = true → trimStart (ws ++ s) = trimStart s.
Proof.
  induction ws as [|c ws IH]; [done|]. simpl.
  intros [-> Hws]%andb_prop. by apply IH.
Qed.

Lemma trimStart_id s : starts_with_space s = false → trimStart s = s.
Proof. destruct s as [|c s]; [done|]. simpl. by intros ->. Qed.

Lemma forallb_reverse {A} (f : A → bool) l :
  forallb f (reverse l) = forallb f l.
Proof.
  induction l as [|x l IH]; [done|].
  rewrite reverse_cons, forallb_app, IH. simpl. by destruct (f x), (forallb f l).
Qed.

Lemma trimEnd_spaces s ws :
  forallb is_space ws = true → trimEnd (s ++ ws) = trimEnd s.
Proof.
  intros Hws. unfold trimEnd. rewrite reverse_app, trimStart_spaces; [done|].
  by rewrite forallb_reverse.
Qed.

Lemma is_word_snoc s :
  is_word s = true → ∃ s' c, s = s' ++ [c] ∧ is_space c = false.
Proof.
  induction s as [|c0 s0 _] using rev_ind; [done|]. intros Hword.
  exists s0, c0. split; [done|].
  assert (forallb (λ c, negb (is_space c)) (s0 ++ [c0]) = true) as Hall
    by (by destruct (s0 ++ [c0])).
  rewrite forallb_app in Hall. apply andb_prop in Hall as [_ Hc]. simpl in Hc.
  by destruct (is_space c0).
Qed.

Lemma is_word_head s text :
  is_word s = true → starts_with_space (s ++ text) = false.
Proof. destruct s as [|c s]; [done|]. simpl. by intros [->%negb_true_iff _]%andb_prop. Qed.

Lemma trimEnd_id text s :
  is_word s = true → trimEnd (text ++ s) = text ++ s.
Proof.
  intros (s' & c & -> & Hc)%is_word_snoc. unfold trimEnd.
  rewrite app_assoc, reverse_app. change (reverse [c]) with [c]. simpl.
  rewrite Hc. by rewrite reverse_cons, reverse_involutive.
Qed.

Lemma split_ws_from_word a s acc in_run :
  is_word a = true →
  split_ws_from (a ++ s) acc in_run = split_ws_from s (acc ++ a) false.
Proof.
  revert acc in_run. induction a as [|c a IH]; intros acc in_run; [done|].
  simpl. intros [->%negb_true_iff Ha]%andb_prop.
  destruct a as [|c' a]; [done|].
  rewrite IH by done. by rewrite <- app_assoc.
Qed.

Lemma split_ws_from_last a acc in_run :
  is_word a = true → split_ws_from a acc in_run = [acc ++ a].
Proof.
  intros Ha. rewrite <- (app_nil_r a) at 1. by rewrite split_ws_from_word.
Qed.

Lemma split_ws_from_run w s acc :
  forallb is_space w = true →
  split_ws_from (w ++ s) acc true = split_ws_from s acc true.
Proof.
  induction w as [|c w IH]; [done|]. simpl.
  intros [-> Hw]%andb_prop. by apply IH.
Qed.

Lemma split_ws_from_gap w s acc :
  w ≠ [] → forallb is_space w = true →
  split_ws_from (w ++ s) acc false = acc :: split_ws_from s [] true.
Proof.
  destruct w as [|c w]; [done|]. intros _. simpl.
  intros [-> Hw]%andb_prop. by rewrite split_ws_from_run.
Qed.

(** X14.  The three tokens of a template that [fromString] returns are never
    empty and hold no whitespace. *)
Theorem template_tokens_are_words string_ T :
  fromString string_ = inr T →
  is_word (start T) = true ∧ is_word (separator T) = true ∧
  is_word (end_ T) = true.
Proof.
  intros H. apply fromString_tokens_wf in H.
  assert (∀ token, token ≠ [] ∧ forallb (λ c, negb (is_space c)) token = true →
    is_word token = true) as Hword.
  { intros [|c token] [? ?]; done. }
  apply Forall_cons in H as [H1 H]. apply Forall_cons in H as [H2 H].
  apply Forall_cons in H as [H3 _]. split_and!; by apply Hword.
Qed.

Lemma template_tokens_are_words_witness :
  is_word (start angle_template) = true ∧
  is_word (separator angle_template) = true ∧
  is_word (end_ angle_template) = true.
Proof.
  refine (template_tokens_are_words (u16 "  >><  .   <<> ") angle_template _).
  by vm_compute.
Defined.

(** X15.  Three words separated by any non-empty runs of whitespace, with any
    whitespace before and after, parse to the template of these words. *)
Theorem fromString_of_words before a gap1 b gap2 c after :
  is_word a = true → is_word b = true → is_word c = true →
  forallb is_space before = true → forallb is_space after = true →
  gap1 ≠ [] → forallb is_space gap1 = true →
  gap2 ≠ [] → forallb is_space gap2 = true →
  fromString (before ++ a ++ gap1 ++ b ++ gap2 ++ c ++ after)
    = inr (mkTemplate a b c).
Proof.
  intros Ha Hb Hc Hbefore Hafter Hne1 Hgap1 Hne2 Hgap2.
  assert (trim (before ++ a ++ gap1 ++ b ++ gap2 ++ c ++ after)
          = a ++ gap1 ++ b ++ gap2 ++ c) as Htrim.
  { unfold trim. rewrite trimStart_spaces by done.
    rewrite trimStart_id by by apply is_word_head.
    rewrite !app_assoc. rewrite trimEnd_spaces by done.
    by rewrite trimEnd_id. }
  unfold fromString. rewrite Htrim. unfold split_ws.
  rewrite split_ws_from_word, split_ws_from_gap by done.
  rewrite split_ws_from_word, split_ws_from_gap by done.
  by rewrite split_ws_from_last.
Qed.

Lemma fromString_of_words_witness :
  fromString ([9%N] ++ u16 "buildvar(--" ++ u16 "  " ++ u16 "-"
              ++ [32%N; 160%N] ++ u16 ")" ++ [10%N])
    = inr (mkTemplate (u16 "buildvar(--") (u16 "-") (u16 ")")).
Proof.
  refine (fromString_of_words [9%N] (u16 "buildvar(--") (u16 "  ") (u16 "-")
    [32%N; 160%N] (u16 ")") [10%N] _ _ _ _ _ _ _ _ _); by vm_compute.
Defined.

(** X16.  A template string that is empty or all whitespace is rejected with
    the too-few-tokens error. *)
Theorem fromString_of_blank string_ :
  forallb is_space string_ = true →
  fromString string_ = inl (Error (too_few_tokens string_)).
Proof.
  intros Hblank. unfold fromString, trim.
  assert (trimStart string_ = []) as ->; [|done].
  induction string_ as [|c s IH]; [done|]. simpl in *.
  apply andb_prop in Hblank as [-> Hs]. by apply IH.
Qed.

Lemma fromString_of_blank_witness :
  fromString (u16 "   ") = inl (Error (too_few_tokens (u16 "   "))).
Proof.
  refine (fromString_of_blank (u16 "   ") _). by vm_compute.
Defined.

(** * Emission of a directive *)

Lemma pipeline_length t chunks emitted t' :
  pipeline t chunks = (emitted, inr t') → length emitted = length chunks.
Proof.
  revert t emitted. induction chunks as [|chunk chunks IH]; intros t emitted.
  - by intros [= <- _].
  - simpl. destruct (_transform t chunk) as [data t1|e ctx]; [|done].
    destruct (pipeline t1 chunks) as [emitted1 r] eqn:Hp.
    intros [= <- ->]. simpl. f_equal. by eapply IH.
Qed.

Lemma concat_nil_replicate (l : list str) :
  concat l = [] → l = replicate (length l) [].
Proof.
  induction l as [|x l IH]; [done|]. simpl.
  intros [-> Hl]%app_eq_nil. f_equal. by apply IH.
Qed.

Lemma find_end_take_Some e buf body k m :
  find_end e buf (take k body) = Some m → find_end e buf body = Some m.
Proof.
  revert buf body m. induction k as [|k IH]; intros buf body m; [done|].
  destruct body as [|c body]; [done|]. simpl.
  destruct (endsWith _ _); [done|].
  destruct (find_end e (buf ++ [c]) (take k body)) as [m'|] eqn:Ht; [|done].
  intros [= <-]. by rewrite (IH _ _ _ Ht).
Qed.

Lemma find_end_le e buf body m : find_end e buf body = Some m → m ≤ length body.
Proof.
  revert buf m. induction body as [|c body IH]; intros buf m; [done|]. simpl.
  destruct (endsWith _ _); [intros [= <-]; lia|].
  destruct (find_end e (buf ++ [c]) body) as [m'|] eqn:Hb; [|done].
  intros [= <-]. apply IH in Hb. lia.
Qed.

Lemma forallb_take {A} (f : A → bool) n l :
  forallb f l = true → forallb f (take n l) = true.
Proof.
  revert n. induction l as [|x l IH]; intros [|n]; try done. simpl.
  intros [-> Hl]%andb_prop. by apply IH.
Qed.

Lemma concat_replicate_nil n : concat (replicate n ([] : str)) = [].
Proof. induction n; [done|]. done. Qed.

(** Before its last code unit, a directive gives no output. *)
Lemma scan_directive_prefix T D ws raw n :
  start T ≠ [] → end_ T ≠ [] → piece_ok T (Directive ws raw) = true →
  n < length (piece_source T (Directive ws raw)) →
  ∃ f buf,
    scan T D lookingForDirectiveState []
      (take n (piece_source T (Directive ws raw))) = inr (f, buf, []).
Proof.
  intros Hstart Hend
    [[[Hws Hhead%negb_true_iff]%andb_prop Hfind%bool_decide_eq_true_1]%andb_prop
     Hlen%bool_decide_eq_true_1]%andb_prop Hn.
  simpl in *. set (body := raw ++ end_ T) in *.
  rewrite !length_app in Hn.
  assert (length body = length raw + length (end_ T)) as Hbody
    by (unfold body; apply length_app).
  destruct (decide (n < length (start T))) as [Hin|Hout].
  - rewrite take_app_le by lia. eexists _, _.
    apply (scan_start_partial T D [] (take n (start T)) (drop n (start T))).
    + by rewrite take_drop.
    + intros Hnil. apply (f_equal length) in Hnil.
      rewrite length_drop in Hnil. simpl in Hnil. lia.
  - rewrite take_app_ge by lia. rewrite scan_start by done.
    set (m := n - length (start T)).
    destruct (decide (m ≤ length ws)) as [Hin|Hout'].
    + rewrite take_app_le by done. eexists _, _.
      rewrite <- (app_nil_r (take m ws)). rewrite scan_whitespace; [done|].
      by apply forallb_take.
    + rewrite take_app_ge by lia. rewrite scan_whitespace by done.
      set (k := m - length ws).
      assert (0 < k < length body) as Hk by lia.
      assert (take k body ≠ []) as Hne.
      { intros Hnil. apply (f_equal length) in Hnil.
        rewrite length_take in Hnil. simpl in Hnil. lia. }
      rewrite scan_enter_directive; [|done|].
      2:{ destruct body as [|c body']; [done|]. destruct k; [lia|done]. }
      rewrite scan_inDirective by (simpl; lia).
      destruct (find_end (end_ T) [] (take k body)) as [m'|] eqn:Hm.
      * pose proof (find_end_le _ _ _ _ Hm) as Hle.
        apply find_end_take_Some in Hm. rewrite length_take in Hle.
        rewrite Hfind in Hm. injection Hm as <-. lia.
      * rewrite bool_decide_eq_true_2; [by eexists _, _|].
        rewrite length_take. simpl. lia.
Qed.

(** X2.  A well-formed directive that arrives in several chunks gives an empty
    emission for every chunk before the one that brings its last code
    unit; that chunk emits the value, or fails the stream with the error of
    the resolver. *)
Theorem directive_is_emitted_on_completion T D ws raw before last :
  start T ≠ [] → end_ T ≠ [] →
  piece_ok T (Directive ws raw) = true →
  last ≠ [] →
  concat before ++ last = piece_source T (Directive ws raw) →
  match getValue D (trim raw) (separator T) with
  | inl e =>
      pipeline (new_SwapTransform D T) (before ++ [last])
        = (replicate (length before) [], inl e)
  | inr value =>
      ∃ t',
        pipeline (new_SwapTransform D T) (before ++ [last])
          = (replicate (length before) [] ++ [value], inr t') ∧
        scanning t'
  end.
Proof.
  intros Hstart Hend Hok Hlast Hsource.
  assert (concat before
          = take (length (concat before)) (piece_source T (Directive ws raw)))
    as Hprefix by (by rewrite <- Hsource, take_app_length).
  destruct (scan_directive_prefix T D ws raw (length (concat before)))
    as (f & buf & Hscan); [done..| |].
  { rewrite <- Hsource, length_app. destruct last; [done|simpl; lia]. }
  rewrite <- Hprefix in Hscan.
  pose proof (pipeline_scan (new_SwapTransform D T) before eq_refl) as Hb.
  simpl in Hb. rewrite Hscan in Hb.
  destruct Hb as (emitted & tb & Hrun & Hem & Hf & Hbuf & Hout & HT & HD).
  pose proof (pipeline_length _ _ _ _ Hrun) as Hlen.
  apply concat_nil_replicate in Hem. rewrite Hlen in Hem.
  pose proof (pipeline_scan (new_SwapTransform D T) (before ++ [last]) eq_refl)
    as Hall.
  cbv zeta in Hall. rewrite concat_app in Hall.
  change (concat [last]) with (last ++ []) in Hall.
  rewrite app_nil_r, Hsource in Hall.
  change (scan _ _ _ _ _) with
    (scan T D lookingForDirectiveState [] (piece_source T (Directive ws raw)))
    in Hall.
  rewrite (scan_piece T D (Directive ws raw)) in Hall by done.
  rewrite pipeline_app, Hrun in Hall |- *.
  change (pipeline tb [last]) with
    (match _transform tb last with
     | Failed e _ => ([], inl e)
     | Pushed data t' => ([data], inr t')
     end) in Hall |- *.
  destruct (_transform tb last) as [data t1|e' ctx'] eqn:Ht;
    destruct (getValue D (trim raw) (separator T)) as [e|value].
  - by destruct Hall as [? [=]].
  - destruct Hall as (? & t' & [= <- <-] & Hval & Hs & Hb & Ho & _).
    rewrite concat_app, Hem, concat_replicate_nil in Hval. simpl in Hval.
    rewrite app_nil_r in Hval. subst data. exists t1. by rewrite Hem.
  - destruct Hall as [? [= <- <-]]. by rewrite app_nil_r, Hem.
  - by destruct Hall as (? & ? & [=] & _).
Qed.

Lemma directive_is_emitted_on_completion_witness :
  ∃ t',
    pipeline (new_SwapTransform colors bang_template)
      ([u16 "<"; u16 "!  col"; u16 "or.red "] ++ [u16 "!>"])
      = (replicate 3 [] ++ [u16 "#ff0000"], inr t') ∧
    scanning t'.
Proof.
  refine (directive_is_emitted_on_completion bang_template colors (u16 "  ")
    (u16 "color.red ") [u16 "<"; u16 "!  col"; u16 "or.red "] (u16 "!>")
    _ _ _ _ _); by vm_compute.
Defined.
